(** * CodeScribe: the web client's handlers and the documentation pipeline

    The repository's sources are the React front end (components under
    [web/src/components] and the top-level [App]).  Its event handlers are
    embedded below as functions from the component state and the answer the
    service gave to the list of effects the handler performs, in program
    order.  The File Assembler and the Unit Documenter of the batch pipeline
    are not part of the sources; they are modelled from the specification in
    [Module Pipeline]. *)

From stdpp Require Import base strings list gmap.
From Stdlib.Strings Require Import Ascii Byte.

Local Open Scope string_scope.
Local Open Scope list_scope.
Local Open Scope nat_scope.

(** ** JavaScript values, as far as the components use them *)

Module JS.

Section Values.
(** [H] is the type of event handlers stored in props. *)
Context {H : Type}.

Inductive Value :=
| Undefined
| Bool (b : bool)
| Str (s : string)
| Handler (h : H).

(** ToBoolean *)
Definition truthy (v : Value) : bool :=
  match v with
  | Undefined => false
  | Bool b => b
  | Str s => negb (String.eqb s "")
  | Handler _ => true
  end.

(** [a || b] *)
Definition or (a b : Value) : Value := if truthy a then a else b.

(** Reading a property of an object: a missing key reads as [undefined]. *)
Definition get (o : gmap string Value) (k : string) : Value :=
  default Undefined (o !! k).

(** A destructuring default [{ k = d }]: it applies when the property is
    [undefined], present or not. *)
Definition get_default (o : gmap string Value) (k : string) (d : Value) : Value :=
  match get o k with
  | Undefined => d
  | v => v
  end.

(** String(v), as a template literal interpolates it. *)
Definition to_string (v : Value) : string :=
  match v with
  | Undefined => "undefined"
  | Bool true => "true"
  | Bool false => "false"
  | Str s => s
  | Handler _ => "function"
  end.
End Values.

Arguments Value : clear implicits.

(** [s || d] on a possibly missing string. *)
Definition str_or (s : option string) (d : string) : string :=
  match s with
  | Some s' => if String.eqb s' "" then d else s'
  | None => d
  end.

(** An awaited promise: it resolves to a value, or rejects with a value [e]
    whose [e.message] is a string or missing, or rejects with [null] or
    [undefined], of which no property can be read. *)
Inductive Awaited (A : Type) :=
| Resolved (a : A)
| Rejected (message : option string)
| RejectedNullish.
Arguments Resolved {A} a.
Arguments Rejected {A} message.
Arguments RejectedNullish {A}.

End JS.

(** ** components/ui/Button.tsx *)

Module Button.
Import JS.

Section Render.
Context {H : Type}.

Abbreviation Props := (gmap string (Value H)).

(** The rendered [<button>]: its attributes, whether the spinner is
    drawn before the children, and the children. *)
Record Element := {
  attrs : Props;
  spinner : bool;
  children : Value H
}.

Definition base : string :=
  "inline-flex items-center justify-center rounded-lg font-medium transition disabled:opacity-50 disabled:cursor-not-allowed".

Definition sizes : gmap string string :=
  {[ "sm" := "h-8 px-3 text-xs";
     "md" := "h-10 px-4 text-sm";
     "lg" := "h-11 px-5 text-base" ]}.

Definition variants : gmap string string :=
  {[ "primary" := "bg-brand-600 text-white hover:bg-brand-700";
     "secondary" := "border bg-white hover:bg-gray-50";
     "ghost" := "hover:bg-gray-50" ]}.

(** [`${x}`] for the result of a table lookup *)
Definition interpolate (o : option string) : string := default "undefined" o.

(** The parameter pattern takes [variant], [size], [className] and
    [children] out of the props object; [...props] is what is left. *)
Definition props_rest (p : Props) : Props :=
  delete "children" (delete "className" (delete "size" (delete "variant" p))).

(** [const { loading = false, disabled, ...rest } = props] *)
Definition rest (p : Props) : Props :=
  delete "disabled" (delete "loading" (props_rest p)).

Definition Button (p : Props) : Element :=
  let variant := get_default p "variant" (Str "primary") in
  let size := get_default p "size" (Str "md") in
  let className := get_default p "className" (Str "") in
  let props := props_rest p in
  let loading := get_default props "loading" (Bool false) in
  let disabled := get props "disabled" in
  let sizes_ := sizes !! to_string size in
  let variants_ := variants !! to_string variant in
  {| (* attributes written later in the JSX win: [{...rest}] comes last *)
     attrs :=
       rest p ∪
       {[ "className" :=
            Str (base +:+ " " +:+ interpolate sizes_ +:+ " " +:+
                 interpolate variants_ +:+ " " +:+ to_string className);
          "disabled" := or loading disabled ]};
     spinner := truthy loading;
     children := get p "children" |}.

(** The browser side: a [<button>] whose [disabled] attribute is set
    dispatches no click event; otherwise a click runs [onClick]. *)
Definition is_disabled (e : Element) : bool := truthy (get (attrs e) "disabled").

Definition click (e : Element) : option H :=
  if is_disabled e then None
  else match get (attrs e) "onClick" with
       | Handler h => Some h
       | _ => None
       end.
End Render.

Arguments Element : clear implicits.
End Button.

(** ** lib/api: the service as the panels see it

    The module itself is not among the sources; the types below have the
    fields the panels read and write. *)

Module Api.
Import JS.

Inductive Provider := deepseek | openai | huggingface.

Record File := { name : string; size : nat }.

(** The options object of [documentFile] and [startBatch]; the panels pass
    [output_format] to [documentFile] only. *)
Record Options := {
  provider : Provider;
  model : string;
  style : string;
  verbosity : string;
  output_format : option string
}.

Record CodeRequest := {
  code : string;
  language : string;
  code_options : Options
}.

(** [BatchStatus]: the handlers read [status]; [message] is only shown
    (so is [progress], a number that no handler inspects). *)
Record BatchStatus := { status : string; message : string }.

(** The answer of [documentCode]. *)
Record CodeResponse := {
  success : bool;
  code_documentation : option string;
  code_message : option string
}.

(** The answer of [startBatch]; [job_id] may be missing or empty. *)
Record StartResponse := { job_id : option string }.

(** What [documentFile] resolves to: a [Blob], an object that may carry a
    [documentation] property (itself possibly [undefined]), or nothing. *)
Inductive FileResponse :=
| RespBlob (blob : list byte)
| RespObject (documentation : option (option string))
| RespNull.

(** The four requests the client can issue. *)
Inductive Request :=
| documentCode (r : CodeRequest)
| documentFile (f : File) (o : Options)
| startBatch (fs : list File) (o : Options)
| batchStatus (job : string).

Definition is_status_query (r : Request) : bool :=
  match r with
  | batchStatus _ => true
  | _ => false
  end.

End Api.

(** ** Effects of a handler, in program order *)

Module Effects.
Import JS Api.

Inductive Effect :=
| Call (r : Request)
| setLoading (b : bool)
| setError (e : option string)
| setResult (s : string)
| setJobId (j : option string)
| setStatus (s : BatchStatus)
| setPolling (t : nat)
| setInterval (t : nat) (ms : nat)
| clearInterval (t : nat)
| download (blob : list byte) (filename : string).

Definition request_of (e : Effect) : option Request :=
  match e with
  | Call r => Some r
  | _ => None
  end.

(** The requests among the effects, in order. *)
Definition requests (es : list Effect) : list Request := omap request_of es.

Definition is_clear (t : nat) (e : Effect) : bool :=
  match e with
  | clearInterval t' => Nat.eqb t t'
  | _ => false
  end.

(** What could bring a job's artifacts to the user during polling: any
    request other than the status query, or a download. *)
Definition retrieves (e : Effect) : bool :=
  match e with
  | Call r => negb (is_status_query r)
  | download _ _ => true
  | _ => false
  end.


End Effects.

(** ** components/panels/FilePanel.tsx *)

Module FilePanel.
Import JS Api Effects.

Fixpoint split_at_dot (r : list Ascii.ascii)
  : option (list Ascii.ascii * list Ascii.ascii) :=
  match r with
  | [] => None
  | c :: r' =>
      if Ascii.eqb c "."%char then Some ([], r')
      else '(ext, stem) ← split_at_dot r'; Some (c :: ext, stem)
  end.

(** [name.replace(/\.[^.]+$/, '')]: the last dot and what follows it are
    dropped when at least one character follows that dot. *)
Definition strip_extension (s : string) : string :=
  match split_at_dot (rev (String.list_ascii_of_string s)) with
  | Some (_ :: _, stem) => String.string_of_list_ascii (rev stem)
  | _ => s
  end.

Definition with_markdown (o : Options) : Options :=
  {| provider := provider o; model := model o; style := style o;
     verbosity := verbosity o; output_format := Some "markdown" |}.

(** The body of [try], after the request has been answered. *)
Definition show (f : File) (resp : FileResponse) : list Effect :=
  match resp with
  | RespBlob b => [download b (strip_extension (name f) +:+ "_docs.md")]
  | RespObject (Some doc) => [setResult (str_or doc "")]
  | RespObject None | RespNull => []
  end.

(** [handle]: [file] is the component's state, [a] the answer to the
    request. *)
Definition handle (file : option File) (o : Options) (a : Awaited FileResponse)
  : list Effect :=
  match file with
  | None => []
  | Some f =>
      [setLoading true; setError None; setResult ""] ++
      Call (documentFile f (with_markdown o)) ::
      match a with
      | Resolved resp => show f resp
      | Rejected m => [setError (Some (str_or m "File documentation failed"))]
      | RejectedNullish => [] (* [e.message] throws inside [catch] *)
      end ++
      [setLoading false]
  end.

Inductive Callback := cb_handle | cb_clear.

(** [<Button onClick={handle} disabled={!file} loading={loading}>] *)
Definition generate_button (file : option File) (loading : bool)
  : Button.Element Callback :=
  Button.Button
    {[ "onClick" := Handler cb_handle;
       "disabled" := Bool (negb (bool_decide (is_Some file)));
       "loading" := Bool loading;
       "children" := Str "Generate" ]}.

End FilePanel.

(** ** components/panels/BatchPanel.tsx *)

Module BatchPanel.
Import JS Api Effects.

Definition terminal (s : BatchStatus) : bool :=
  String.eqb (status s) "completed" || String.eqb (status s) "failed".

(** [if (polling) window.clearInterval(polling)]: [polling] is a timer id or
    [null]; the id [0] is falsy. *)
Definition clear_previous (polling : option nat) : list Effect :=
  match polling with
  | Some (S p) => [clearInterval (S p)]
  | _ => []
  end.

(** The callback given to [setInterval]; it closes over the job id of the
    answer of [startBatch] and over its own timer id [t].  [a] is the
    answer to the status request. *)
Definition tick (job : option string) (t : nat) (a : Awaited BatchStatus)
  : list Effect :=
  match job with
  | None => []
  | Some j =>
      if String.eqb j "" then []
      else
        Call (batchStatus j) ::
        match a with
        | Resolved s =>
            setStatus s :: (if terminal s then [clearInterval t] else [])
        | Rejected _ | RejectedNullish => []
        end
  end.

(** The part of [start] after the request has been answered: [t] is the id
    [window.setInterval] returns. *)
Definition schedule (polling : option nat) (resp : StartResponse) (t : nat)
  : list Effect :=
  setJobId (job_id resp) :: clear_previous polling ++ [setInterval t 1500; setPolling t].

(** [start]: [files] and [polling] are the component's state. *)
Definition start (files : list File) (polling : option nat) (o : Options)
    (a : Awaited StartResponse) (t : nat) : list Effect :=
  match files with
  | [] => []
  | _ :: _ =>
      setLoading true ::
      Call (startBatch files o) ::
      match a with
      | Resolved resp => schedule polling resp t
      | Rejected _ | RejectedNullish => []
      end ++
      [setLoading false]
  end.

(** The timer in the one order of events in which every status request is
    answered before the interval fires again: the callback then runs once
    per period, to its end, until the interval is cleared.  [answers] are
    the answers to the successive status requests.  The [await] does not
    hold the interval back, so answers that take longer than the period
    give other orders; [Interval] below has them all, and this one as
    [Interval.in_turn]. *)
Fixpoint poll (job : option string) (t : nat) (answers : list (Awaited BatchStatus))
  : list Effect :=
  match answers with
  | [] => []
  | a :: rest =>
      let es := tick job t a in
      es ++ (if existsb (is_clear t) es then [] else poll job t rest)
  end.

(** The answers up to and including the first that reports a terminal
    status. *)
Definition reports_terminal (a : Awaited BatchStatus) : bool :=
  match a with
  | Resolved s => terminal s
  | Rejected _ | RejectedNullish => false
  end.

Fixpoint until_terminal (answers : list (Awaited BatchStatus))
  : list (Awaited BatchStatus) :=
  match answers with
  | [] => []
  | a :: rest => a :: (if reports_terminal a then [] else until_terminal rest)
  end.

(** A batch from the click on Start to the end of polling. *)
Definition run (files : list File) (polling : option nat) (o : Options)
    (a : Awaited StartResponse) (t : nat) (answers : list (Awaited BatchStatus))
  : list Effect :=
  start files polling o a t ++
  match files, a with
  | _ :: _, Resolved resp => poll (job_id resp) t answers
  | _, _ => []
  end.

Inductive Callback := cb_start.

(** [<Button onClick={start} disabled={!files.length} loading={loading}>] *)
Definition start_button (files : list File) (loading : bool)
  : Button.Element Callback :=
  Button.Button
    {[ "onClick" := Handler cb_start;
       "disabled" := Bool (Nat.eqb (length files) 0);
       "loading" := Bool loading;
       "children" := Str "Start" ]}.

End BatchPanel.

(** ** App.tsx: the handlers written inline in the top-level component *)

Module App.
Import JS Api Effects.

(** The file tab: [const f = input?.files?.[0]; if (!f) return].  [input]
    is the file list of the element with id [single-file], if there is
    one. *)
Definition file_click (input : option (list File)) (o : Options)
    (a : Awaited FileResponse) : list Effect :=
  FilePanel.handle (input ≫= head) o a.

(** The code tab's Generate: the request is made with the text of the
    editor as it is; a resolved answer without [success] is thrown and
    caught like a rejection. *)
Definition code_click (r : CodeRequest) (a : Awaited CodeResponse) : list Effect :=
  [setLoading true; setError None; setResult ""] ++
  Call (documentCode r) ::
  match a with
  | Resolved res =>
      if success res then [setResult (str_or (code_documentation res) "")]
      else [setError (Some (str_or (code_message res) "Failed to generate documentation"))]
  | Rejected m => [setError (Some (str_or m "Failed to generate documentation"))]
  | RejectedNullish => [] (* [e.message] throws inside [catch] *)
  end ++
  [setLoading false].

(** [BatchPanel.start] of App.tsx: the files are read from the element with
    id [batch-files] ([Array.from(input?.files || [])]); there is no
    loading flag. *)
Definition start (input : option (list File)) (polling : option nat) (o : Options)
    (a : Awaited StartResponse) (t : nat) : list Effect :=
  match default [] input with
  | [] => []
  | files =>
      Call (startBatch files o) ::
      match a with
      | Resolved resp => BatchPanel.schedule polling resp t
      | Rejected _ | RejectedNullish => []
      end
  end.

End App.

(** ** The batch pipeline: File Assembler and Unit Documenter

    The service behind [lib/api] is not among the sources.  The definitions
    of this module follow the specification's data model and its component
    contracts; each names what it stands for. *)

Module Pipeline.

(** Modelled from the spec: the error taxonomy of the pipeline. *)
Inductive ErrorKind :=
| UnsupportedLanguage
| ParseError
| AuthFailure
| RateLimited
| Timeout
| InvalidResponse
| EmptyBatch
| TooManyFiles
| PayloadTooLarge
| NotFound
| NotReady
| Cancelled.

(** Modelled from the spec: the kinds of documentable unit (function, class,
    module-level block). *)
Inductive UnitKind := function | class | module_block.

(** Modelled from the spec: a source span, as a unit kind and the byte
    offsets [start] (first byte of the unit) and [stop]. *)
Record Span := { kind : UnitKind; start : nat; stop : nat }.

(** Modelled from the spec: the generation status of a DocumentedUnit
    (ok / skipped / failed-with-reason). *)
Inductive GenStatus :=
| ok
| skipped
| failed (reason : ErrorKind).

(** Modelled from the spec: a DocumentedUnit (source span, generated
    documentation text, generation status). *)
Record DocumentedUnit := {
  span : Span;
  documentation : list byte;
  gen_status : GenStatus
}.

Definition is_ok (u : DocumentedUnit) : bool :=
  match gen_status u with
  | ok => true
  | _ => false
  end.

(** *** File Assembler, inline format *)

(** Modelled from the spec: the inline format of the File Assembler.  The
    units are taken in the order given; [src] is the source from offset
    [pos] on.  The documentation of a unit whose generation succeeded is put
    immediately before the first byte of its span; a unit without generated
    documentation adds nothing. *)
Fixpoint inline_from (pos : nat) (src : list byte) (units : list DocumentedUnit)
  : list byte :=
  match units with
  | [] => src
  | u :: rest =>
      if is_ok u then
        let k := start (span u) - pos in
        take k src ++ documentation u ++ inline_from (pos + k) (drop k src) rest
      else inline_from pos src rest
  end.

(** Modelled from the spec: the entry of the file-level error summary for a
    unit whose generation failed. *)
Definition failure_of (u : DocumentedUnit) : option (Span * ErrorKind) :=
  match gen_status u with
  | failed r => Some (span u, r)
  | _ => None
  end.

(** Modelled from the spec: the file-level error summary, one entry per
    failed unit, in unit order. *)
Definition error_summary (units : list DocumentedUnit) : list (Span * ErrorKind) :=
  omap failure_of units.

(** Modelled from the spec: the artifact of one file. *)
Record Artifact := { body : list byte; errors : list (Span * ErrorKind) }.

(** Modelled from the spec: File Assembler, [inline] output format. *)
Definition assemble_inline (content : list byte) (units : list DocumentedUnit)
  : Artifact :=
  {| body := inline_from 0 content units; errors := error_summary units |}.

(** The units follow the source: starts do not decrease, and none lies
    before [from]. *)
Fixpoint in_source_order (from : nat) (units : list DocumentedUnit) : bool :=
  match units with
  | [] => true
  | u :: rest =>
      Nat.leb from (start (span u)) && in_source_order (start (span u)) rest
  end.

(** The number of documentation bytes put at or before source offset [i]. *)
Fixpoint shift (units : list DocumentedUnit) (i : nat) : nat :=
  match units with
  | [] => 0
  | u :: rest =>
      (if is_ok u && Nat.leb (start (span u)) i then length (documentation u) else 0)
      + shift rest i
  end.

(** The documentation bytes the inline format adds in all. *)
Fixpoint inserted (units : list DocumentedUnit) : nat :=
  match units with
  | [] => 0
  | u :: rest =>
      (if is_ok u then length (documentation u) else 0) + inserted rest
  end.

(** Every unit starts within the first [n] bytes or right after them. *)
Definition in_range (n : nat) (units : list DocumentedUnit) : bool :=
  forallb (λ u, Nat.leb (start (span u)) n) units.

(** The way back: the documentation of the successful units is cut out of
    an inline body again, [out] being the body from source offset [pos]
    on. *)
Fixpoint strip_from (pos : nat) (out : list byte) (units : list DocumentedUnit)
  : list byte :=
  match units with
  | [] => out
  | u :: rest =>
      if is_ok u then
        let k := start (span u) - pos in
        take k out
        ++ strip_from (pos + k) (drop (k + length (documentation u)) out) rest
      else strip_from pos out rest
  end.

Definition is_failed (u : DocumentedUnit) : bool :=
  match gen_status u with
  | failed _ => true
  | _ => false
  end.

(** *** Provider Adapter and Unit Documenter *)

(** Modelled from the spec: the typed failures of a Provider Adapter call;
    a rate-limit answer may carry the provider's retry hint. *)
Inductive Failure :=
| auth_failure
| rate_limited (retry_hint : option nat)
| timed_out
| invalid_response.

(** Modelled from the spec: the error kind a typed failure stands for. *)
Definition kind_of (f : Failure) : ErrorKind :=
  match f with
  | auth_failure => AuthFailure
  | rate_limited _ => RateLimited
  | timed_out => Timeout
  | invalid_response => InvalidResponse
  end.

(** Modelled from the spec: RateLimited and Timeout are the failures
    retried under the retry limit. *)
Definition transient (f : Failure) : bool :=
  match f with
  | rate_limited _ | timed_out => true
  | _ => false
  end.

(** Modelled from the spec: the answer of [generate]: documentation text or
    a typed failure. *)
Inductive Reply :=
| generated (text : list byte)
| failure (f : Failure).

Definition is_transient (r : Reply) : bool :=
  match r with
  | failure f => transient f
  | generated _ => false
  end.

Definition is_invalid (r : Reply) : bool :=
  match r with
  | failure invalid_response => true
  | _ => false
  end.

(** The generation status a last reply leaves the unit with. *)
Definition final_status (r : Reply) : GenStatus :=
  match r with
  | generated _ => ok
  | failure f => failed (kind_of f)
  end.

Definition transient_or_invalid (r : Reply) : bool := is_transient r || is_invalid r.

(** Modelled from the spec: the output formats. *)
Inductive OutputFormat := markdown | html | inline.

(** Modelled from the spec: GenerationOptions (provider and model
    identifiers, style, verbosity, output format, and the toggles for the
    examples, params and returns sections). *)
Record GenerationOptions := {
  provider : string;
  model : string;
  style : string;
  verbosity : string;
  output_format : OutputFormat;
  examples : bool;
  params : bool;
  returns : bool
}.

(** Modelled from the spec: the contract of the Provider Adapter,
    [generate(unit text, options)].  [W] is the state of the provider as the
    caller meets it: a call answers and moves it on. *)
Class ProviderAdapter (W : Type) :=
  generate : list byte → GenerationOptions → W → Reply * W.

(** Modelled from the spec: a unit descriptor of the Source Unit Extractor,
    with the text of the unit. *)
Record SourceUnit := { unit_span : Span; unit_text : list byte }.

Section Documenter.
Context {W : Type} `{!ProviderAdapter W}.

(** Prompt construction (from the unit's source, style, verbosity and
    output format) and post-processing of the generated text are taken as
    given. *)
Variable build_prompt : SourceUnit → GenerationOptions → list byte.
Variable postprocess : list byte → list byte.

(** Modelled from the spec: the outcome of one unit's generation: the
    status and text it ends with, the replies it received (oldest first)
    and the provider's state afterwards. *)
Record Attempt := {
  status : GenStatus;
  text : list byte;
  replies : list Reply;
  world : W
}.

(** The text a last reply leaves the unit with. *)
Definition final_text (r : Reply) : list byte :=
  match r with
  | generated t => postprocess t
  | failure _ => []
  end.

Definition received (r : Reply) (a : Attempt) : Attempt :=
  {| status := status a; text := text a; replies := r :: replies a; world := world a |}.

Definition finish (s : GenStatus) (t : list byte) (r : Reply) (w : W) : Attempt :=
  {| status := s; text := t; replies := [r]; world := w |}.

(** Modelled from the spec: the bounded-retry policy.  A RateLimited or
    Timeout answer is retried while [retries_left] lasts, an InvalidResponse
    while [invalid_left] lasts, an AuthFailure never; when the budget is
    used up the last failure is the unit's terminal error kind. *)
Fixpoint call_with_retry (prompt : list byte) (o : GenerationOptions)
    (invalid_left : nat) : nat → W → Attempt :=
  fix retry (retries_left : nat) (w : W) : Attempt :=
    let '(r, w') := generate prompt o w in
    match r with
    | generated t => finish ok (postprocess t) r w'
    | failure f =>
        match f with
        | auth_failure => finish (failed AuthFailure) [] r w'
        | rate_limited _ | timed_out =>
            match retries_left with
            | S n => received r (retry n w')
            | O => finish (failed (kind_of f)) [] r w'
            end
        | invalid_response =>
            match invalid_left with
            | S m => received r (call_with_retry prompt o m retries_left w')
            | O => finish (failed InvalidResponse) [] r w'
            end
        end
    end.

(** Modelled from the spec: Unit Documenter.  [retry_limit] is the
    configured limit; an InvalidResponse is retried once. *)
Definition document_unit (retry_limit : nat) (o : GenerationOptions)
    (u : SourceUnit) (w : W) : Attempt :=
  call_with_retry (build_prompt u o) o 1 retry_limit w.

(** Modelled from the spec: the DocumentedUnit a unit's generation ends
    with. *)
Definition result_of (u : SourceUnit) (a : Attempt) : DocumentedUnit :=
  {| span := unit_span u; documentation := text a; gen_status := status a |}.

(** Modelled from the spec: the results of one file, addressed by unit
    index ([None]: the unit was never dispatched), with the replies received
    and the provider's state. *)
Record FanOut := {
  results : list (option DocumentedUnit);
  log : list Reply;
  after : W
}.

(** Modelled from the spec: the fan-out of Unit Documenter calls over the
    units of one file, one unit after the other.  A failed unit is a result
    like any other; only an AuthFailure, fatal to the whole job, stops the
    dispatch of the units that follow. *)
Fixpoint document_units (retry_limit : nat) (o : GenerationOptions)
    (units : list SourceUnit) (w : W) : FanOut :=
  match units with
  | [] => {| results := []; log := []; after := w |}
  | u :: rest =>
      let a := document_unit retry_limit o u w in
      match status a with
      | failed AuthFailure =>
          {| results := Some (result_of u a) :: ((λ _, None) <$> rest);
             log := replies a;
             after := world a |}
      | _ =>
          let f := document_units retry_limit o rest (world a) in
          {| results := Some (result_of u a) :: results f;
             log := replies a ++ log f;
             after := after f |}
      end
  end.

(** The replies that were followed by another call. *)
Definition retried (rs : list Reply) : list Reply := take (length rs - 1) rs.

End Documenter.

(** A scripted provider: its state is the list of answers still to give;
    once the script is used up every call times out. *)
#[export] Instance scripted : ProviderAdapter (list Reply) :=
  λ _ _ script,
    match script with
    | r :: rest => (r, rest)
    | [] => (failure timed_out, [])
    end.

End Pipeline.

(** ** Sample inputs *)

Module Samples.
Import Pipeline.

Definition bytes (s : string) : list byte := String.list_byte_of_string s.

(** A file with two functions, the second starting at offset 14. *)
Definition source : list byte := bytes "def f(): pass;def g(): pass".

Definition unit_at (at_ : nat) (doc : string) (s : GenStatus) : DocumentedUnit :=
  {| span := {| kind := function; start := at_; stop := at_ + 13 |};
     documentation := bytes doc;
     gen_status := s |}.

(** The first function documented, the second failed after its retries. *)
Definition units : list DocumentedUnit :=
  [unit_at 0 "# f does nothing;" ok; unit_at 14 "# never shown;" (failed RateLimited)].

Definition source_unit (at_ : nat) (code : string) : SourceUnit :=
  {| unit_span := {| kind := function; start := at_; stop := at_ + 13 |};
     unit_text := bytes code |}.

Definition source_units : list SourceUnit :=
  [source_unit 0 "def f(): pass"; source_unit 14 "def g(): pass"].

Definition options : GenerationOptions :=
  {| provider := "deepseek"; model := "deepseek-r1"; style := "google";
     verbosity := "medium"; output_format := inline;
     examples := true; params := true; returns := true |}.

(** Prompt construction that hands the unit's text on as it is. *)
Definition plain_prompt (u : SourceUnit) (_ : GenerationOptions) : list byte :=
  unit_text u.

(** A provider that is rate limited twice, then times out twice, then
    answers. *)
Definition script : list Reply :=
  [failure (rate_limited (Some 2)); failure (rate_limited None);
   failure timed_out; failure timed_out; generated (bytes "# g does nothing;")].

End Samples.

(** ** App.tsx: provider and model

    The state the top-level component keeps for the provider buttons and
    the model select of the Provider panel. *)

Module AppModel.
Import JS Api.

(** [models] (useMemo): the models offered for a provider. *)
Definition models (p : Provider) : list string :=
  match p with
  | openai => ["gpt-3.5-turbo"; "gpt-4"; "gpt-4-turbo-preview"]
  | huggingface => ["microsoft/DialoGPT-medium"; "microsoft/CodeBERT-base"]
  | deepseek => ["deepseek-r1"; "deepseek-chat"]
  end.

Definition same_provider (p q : Provider) : bool :=
  match p, q with
  | deepseek, deepseek | openai, openai | huggingface, huggingface => true
  | _, _ => false
  end.

(** The provider and the model of the state, and whether the effect of
    [useEffect(..., [provider])] has still to run for the provider. *)
Record Selection := { provider : Provider; model : string; pending : bool }.

(** [useState('deepseek')], [useState('deepseek-r1')]; the effect that runs
    on mount sets the model to the first model of [deepseek], which it
    already is. *)
Definition initial : Selection :=
  {| provider := deepseek; model := "deepseek-r1"; pending := false |}.

(** [models[0] || ''] *)
Definition first_model (p : Provider) : string := str_or (head (models p)) "".

(** What happens in the Provider panel: a click on a provider button, the
    effect that follows a change of provider, or the choice of the [i]-th
    option of the select, whose options are the models of the provider of
    the state. *)
Inductive Event :=
| click_provider (p : Provider)
| effect
| choose_model (i : nat).

(** [setProvider(p)] changes the provider and leaves the model: the App is
    rendered with the new provider and the old model until the effect
    [setModel(models[0] || '')] has run.  [setModel(e.target.value)] sets
    the model chosen. *)
Definition step (s : Selection) (e : Event) : Selection :=
  match e with
  | click_provider p =>
      if same_provider p (provider s) then s
      else {| provider := p; model := model s; pending := true |}
  | effect =>
      if pending s
      then {| provider := provider s; model := first_model (provider s);
              pending := false |}
      else s
  | choose_model i =>
      match models (provider s) !! i with
      | Some m => {| provider := provider s; model := m; pending := pending s |}
      | None => s
      end
  end.

Definition run (events : list Event) : Selection := foldl step initial events.

(** The options the panels are given: [{ provider, model, style, verbosity }]. *)
Definition options_of (s : Selection) (style verbosity : string) : Options :=
  {| Api.provider := provider s; Api.model := model s; Api.style := style;
     Api.verbosity := verbosity; output_format := None |}.

End AppModel.

(** ** The state the handlers write, and components/panels/ResultsPanel.tsx *)

Module View.
Import JS Api Effects.

Record State := {
  loading : bool;
  error : option string;
  result : string;
  jobId : option string;
  status : option BatchStatus;
  polling : option nat
}.

(** A state setter replaces its piece of state; the other effects leave the
    state alone. *)
Definition apply (v : State) (e : Effect) : State :=
  match e with
  | setLoading b =>
      {| loading := b; error := error v; result := result v; jobId := jobId v;
         status := status v; polling := polling v |}
  | setError x =>
      {| loading := loading v; error := x; result := result v; jobId := jobId v;
         status := status v; polling := polling v |}
  | setResult r =>
      {| loading := loading v; error := error v; result := r; jobId := jobId v;
         status := status v; polling := polling v |}
  | setJobId j =>
      {| loading := loading v; error := error v; result := result v; jobId := j;
         status := status v; polling := polling v |}
  | setStatus s =>
      {| loading := loading v; error := error v; result := result v; jobId := jobId v;
         status := Some s; polling := polling v |}
  | setPolling t =>
      {| loading := loading v; error := error v; result := result v; jobId := jobId v;
         status := status v; polling := Some t |}
  | Call _ | setInterval _ _ | clearInterval _ | download _ _ => v
  end.

Definition settle (es : list Effect) (v : State) : State := foldl apply v es.

(** The value of [loading] at each request, in order. *)
Fixpoint loading_at_calls (l : bool) (es : list Effect) : list bool :=
  match es with
  | [] => []
  | setLoading b :: es' => loading_at_calls b es'
  | Call _ :: es' => l :: loading_at_calls l es'
  | _ :: es' => loading_at_calls l es'
  end.




End View.

(** ** The polling interval, with answers that arrive when they arrive *)

Module Interval.
Import JS Api Effects.

(** The callback up to its [await]: the guard on the job id, and the
    request. *)
Definition ask (job : option string) : list Effect :=
  match job with
  | Some j => if String.eqb j "" then [] else [Call (batchStatus j)]
  | None => []
  end.

(** The callback after its [await], run when the answer is there. *)
Definition resume (t : nat) (a : Awaited BatchStatus) : list Effect :=
  match a with
  | Resolved s =>
      setStatus s :: (if BatchPanel.terminal s then [clearInterval t] else [])
  | Rejected _ | RejectedNullish => []
  end.

(** The interval fires, or the answer to the [k]-th status request
    arrives.  Nothing orders the two: a request may be answered after later
    ones, and after the interval was cleared. *)
Inductive Event :=
| fires
| arrives (k : nat) (a : Awaited BatchStatus).

(** Whether the interval is running, how many requests were made and which
    of them are not answered yet. *)
Record State := { running : bool; asked : nat; waiting : list nat }.

Definition initial : State := {| running := true; asked := 0; waiting := [] |}.

Definition is_waiting (k : nat) (s : State) : bool :=
  existsb (Nat.eqb k) (waiting s).

(** One event: a firing runs the callback up to its [await] when the
    interval is running; an arrival resumes the callback that waits for
    it, and the interval stops when that callback clears it. *)
Definition step (job : option string) (t : nat) (s : State) (e : Event)
  : State * list Effect :=
  match e with
  | fires =>
      if running s then
        match ask job with
        | [] => (s, [])
        | es => ({| running := true; asked := S (asked s);
                    waiting := waiting s ++ [asked s] |}, es)
        end
      else (s, [])
  | arrives k a =>
      if is_waiting k s then
        ({| running := running s && negb (BatchPanel.reports_terminal a);
            asked := asked s;
            waiting := filter (λ k', k' ≠ k) (waiting s) |},
         resume t a)
      else (s, [])
  end.

(** The effects of a sequence of events, and the state it ends in. *)
Fixpoint play (job : option string) (t : nat) (s : State) (events : list Event)
  : list Effect :=
  match events with
  | [] => []
  | e :: rest => (step job t s e).2 ++ play job t (step job t s e).1 rest
  end.

Fixpoint final (job : option string) (t : nat) (s : State) (events : list Event)
  : State :=
  match events with
  | [] => s
  | e :: rest => final job t (step job t s e).1 rest
  end.


Definition is_fire (e : Event) : bool :=
  match e with
  | fires => true
  | arrives _ _ => false
  end.

End Interval.

(** ** The intervals of the Batch panel *)

Module Timers.
Import JS Api Effects.

(** The intervals that are running, and the [polling] state of the panel
    that is mounted. *)
Record State := { active : gset nat; polling : option nat }.

(** [window.setInterval] starts an interval, [window.clearInterval] ends
    it (and does nothing for an id that is not running). *)
Definition apply (s : State) (e : Effect) : State :=
  match e with
  | setInterval t _ => {| active := {[t]} ∪ active s; polling := polling s |}
  | clearInterval t => {| active := active s ∖ {[t]}; polling := polling s |}
  | setPolling t => {| active := active s; polling := Some t |}
  | _ => s
  end.

Definition settle (es : list Effect) (s : State) : State := foldl apply s es.

(** What happens to the panel: a click on Start that runs [start] to its
    end (the Start button is disabled while [start] runs); the answer to a
    status request of the callback of interval [t], whenever it arrives; or
    a switch to another tab and back: the App renders the panel only while
    its tab is the active one, the panel has no cleanup, and mounted again
    its state starts from [useState(null)]. *)
Inductive Event :=
| started (files : list File) (o : Options) (a : Awaited StartResponse) (t : nat)
| answered (t : nat) (a : Awaited BatchStatus)
| remounted.

Definition step (s : State) (e : Event) : State :=
  match e with
  | started files o a t => settle (BatchPanel.start files (polling s) o a t) s
  | answered t a => settle (Interval.resume t a) s
  | remounted => {| active := active s; polling := None |}
  end.

Definition initial : State := {| active := ∅; polling := None |}.

Definition run (events : list Event) : State := foldl step initial events.

(** The ids [window.setInterval] returns are positive. *)
Definition positive_id (e : Event) : bool :=
  match e with
  | started _ _ _ t => negb (Nat.eqb t 0)
  | _ => true
  end.

Definition stays_mounted (e : Event) : bool :=
  match e with
  | remounted => false
  | _ => true
  end.

End Timers.

(** * Properties of the client *)

Module ButtonFacts.
Import JS Button.

Section Facts.
Context {H : Type}.
Implicit Types p : gmap string (Value H).

(** The keys taken out by the parameter pattern are not [loading] or
    [disabled]. *)
Lemma props_rest_lookup p k :
  k ≠ "variant" → k ≠ "size" → k ≠ "className" → k ≠ "children" →
  props_rest p !! k = p !! k.
Proof.
  intros Hv Hs Hc Hch. unfold props_rest.
  rewrite !lookup_delete_ne; done.
Qed.

Lemma rest_disabled p : rest p !! "disabled" = None.
Proof. unfold rest. apply lookup_delete_eq. Qed.

Lemma rest_onClick p : rest p !! "onClick" = p !! "onClick".
Proof.
  unfold rest. rewrite !lookup_delete_ne by done.
  apply props_rest_lookup; done.
Qed.

(** [disabled={loading || disabled}], and the spread after it cannot
    replace it. *)
Lemma Button_disabled p :
  attrs (Button p) !! "disabled"
  = Some (or (get_default p "loading" (Bool false)) (get p "disabled")).
Proof.
  unfold Button; cbn [attrs].
  rewrite lookup_union_r by apply rest_disabled.
  rewrite lookup_insert_ne by done.
  rewrite lookup_singleton_eq.
  unfold get_default, get.
  rewrite !props_rest_lookup by done.
  reflexivity.
Qed.

(** C9: whenever the [loading] prop is true the rendered button carries
    [disabled = true] (the attribute is [loading || disabled] and the
    spread props cannot override it), so a click on it runs no handler. *)
Theorem Button_loading_disables p :
  p !! "loading" = Some (Bool true) →
  attrs (Button p) !! "disabled"
  = Some (or (get_default p "loading" (Bool false)) (get p "disabled"))
  ∧ attrs (Button p) !! "disabled" = Some (Bool true)
  ∧ is_disabled (Button p) = true
  ∧ spinner (Button p) = true
  ∧ click (Button p) = None.
Proof.
  intros Hl.
  assert (Hd : attrs (Button p) !! "disabled" = Some (Bool true)).
  { rewrite Button_disabled. unfold get_default, get. rewrite Hl. reflexivity. }
  assert (Hdis : is_disabled (Button p) = true).
  { unfold is_disabled, get. rewrite Hd. reflexivity. }
  split; [apply Button_disabled|].
  repeat split; try assumption.
  - unfold Button; cbn [spinner]. unfold get_default, get.
    rewrite props_rest_lookup by done. rewrite Hl. reflexivity.
  - unfold click. rewrite Hdis. reflexivity.
Qed.

(** Without [loading], the button is disabled exactly when the caller's
    [disabled] prop is truthy. *)
Lemma Button_not_loading p :
  get_default p "loading" (Bool false) = Bool false →
  is_disabled (Button p) = truthy (get p "disabled").
Proof.
  intros Hl. unfold is_disabled. unfold get at 1.
  rewrite Button_disabled, Hl. reflexivity.
Qed.

(** An enabled button passes the caller's [onClick] through. *)
Lemma Button_click_enabled p :
  is_disabled (Button p) = false →
  click (Button p) = match get p "onClick" with Handler h => Some h | _ => None end.
Proof.
  intros Hd. unfold click. rewrite Hd.
  unfold get. unfold Button; cbn [attrs].
  rewrite lookup_union_l.
  - rewrite rest_onClick. reflexivity.
  - rewrite lookup_insert_ne by done. rewrite lookup_singleton_ne; done.
Qed.

End Facts.

(** The theorem at the props of a button with a request in flight. *)
Lemma Button_loading_disables_witness :
  attrs (Button ({[ "loading" := Bool true; "onClick" := Handler 0 ]}
                   : gmap string (Value nat))) !! "disabled"
  = Some (or (get_default ({[ "loading" := Bool true; "onClick" := Handler 0 ]}
                             : gmap string (Value nat)) "loading" (Bool false))
            (get ({[ "loading" := Bool true; "onClick" := Handler 0 ]}
                    : gmap string (Value nat)) "disabled"))
  ∧ attrs (Button ({[ "loading" := Bool true; "onClick" := Handler 0 ]}
                     : gmap string (Value nat))) !! "disabled" = Some (Bool true)
  ∧ is_disabled (Button ({[ "loading" := Bool true; "onClick" := Handler 0 ]}
                           : gmap string (Value nat))) = true
  ∧ spinner (Button ({[ "loading" := Bool true; "onClick" := Handler 0 ]}
                       : gmap string (Value nat))) = true
  ∧ click (Button ({[ "loading" := Bool true; "onClick" := Handler 0 ]}
                     : gmap string (Value nat))) = None.
Proof. apply Button_loading_disables. vm_compute. reflexivity. Defined.

(** *** The panels' buttons *)

(** Generate, with a request in flight or with no file chosen, runs
    nothing; with a file and no request in flight it runs [handle]. *)
Lemma generate_button_in_flight file :
  click (FilePanel.generate_button file true) = None.
Proof. destruct file; vm_compute; reflexivity. Qed.

Lemma generate_button_no_file loading :
  click (FilePanel.generate_button None loading) = None.
Proof. destruct loading; vm_compute; reflexivity. Qed.

Lemma generate_button_ready f :
  click (FilePanel.generate_button (Some f) false) = Some FilePanel.cb_handle.
Proof. vm_compute. reflexivity. Qed.

(** Start, likewise. *)
Lemma start_button_in_flight files :
  click (BatchPanel.start_button files true) = None.
Proof. destruct files; vm_compute; reflexivity. Qed.

Lemma start_button_no_files loading :
  click (BatchPanel.start_button [] loading) = None.
Proof. destruct loading; vm_compute; reflexivity. Qed.

Lemma start_button_ready f fs :
  click (BatchPanel.start_button (f :: fs) false) = Some BatchPanel.cb_start.
Proof. vm_compute. reflexivity. Qed.

End ButtonFacts.

Module ClientFacts.
Import JS Api Effects.

(** *** Requests of the handlers *)

Lemma requests_app (es es' : list Effect) :
  requests (es ++ es') = requests es ++ requests es'.
Proof. unfold requests. apply omap_app. Qed.

Lemma requests_show f resp : requests (FilePanel.show f resp) = [].
Proof. destruct resp as [b | [doc|] |]; reflexivity. Qed.

(** [handle] issues one request, for the selected file, or none. *)
Lemma requests_handle file o a :
  requests (FilePanel.handle file o a)
  = match file with
    | None => []
    | Some f => [documentFile f (FilePanel.with_markdown o)]
    end.
Proof.
  destruct file as [f|]; [|reflexivity].
  unfold FilePanel.handle. cbn [app].
  change (requests ?l) with (omap request_of l). cbn [omap list_omap request_of].
  f_equal. fold (requests). rewrite requests_app.
  destruct a as [resp | m | ]; [rewrite requests_show| |]; reflexivity.
Qed.

Lemma requests_clear_previous polling :
  requests (BatchPanel.clear_previous polling) = [].
Proof. destruct polling as [[|n]|]; reflexivity. Qed.

Lemma requests_schedule polling resp t :
  requests (BatchPanel.schedule polling resp t) = [].
Proof.
  unfold BatchPanel.schedule.
  change (requests (?e :: ?l)) with (omap request_of (e :: l)).
  cbn [omap list_omap request_of]. fold requests.
  rewrite requests_app, requests_clear_previous. reflexivity.
Qed.

(** [start] issues one [startBatch], for the selected files, or none. *)
Lemma requests_start files polling o a t :
  requests (BatchPanel.start files polling o a t)
  = match files with
    | [] => []
    | _ :: _ => [startBatch files o]
    end.
Proof.
  destruct files as [|f fs]; [reflexivity|].
  unfold BatchPanel.start.
  change (requests (?e :: ?l)) with (omap request_of (e :: l)).
  cbn [omap list_omap request_of]. fold requests. f_equal.
  rewrite requests_app.
  destruct a as [resp | m | ]; [rewrite requests_schedule| |]; reflexivity.
Qed.

Lemma requests_app_start input polling o a t :
  requests (App.start input polling o a t)
  = match default [] input with
    | [] => []
    | _ :: _ => [startBatch (default [] input) o]
    end.
Proof.
  unfold App.start. destruct (default [] input) as [|f fs]; [reflexivity|].
  change (requests (?e :: ?l)) with (omap request_of (e :: l)).
  cbn [omap list_omap request_of]. fold requests. f_equal.
  destruct a as [resp | m | ]; [rewrite requests_schedule| |]; reflexivity.
Qed.

(** *** The polling callback *)

Lemma is_clear_refl t : is_clear t (clearInterval t) = true.
Proof. apply Nat.eqb_refl. Qed.

Lemma tick_falsy job t a :
  match job with Some j => String.eqb j "" | None => true end = true →
  BatchPanel.tick job t a = [].
Proof.
  unfold BatchPanel.tick. destruct job as [j|]; [|reflexivity].
  intros ->. reflexivity.
Qed.

(** Whether the callback clears its interval. *)
Lemma tick_clears job t a :
  existsb (is_clear t) (BatchPanel.tick job t a)
  = match job with
    | Some j => negb (String.eqb j "") && BatchPanel.reports_terminal a
    | None => false
    end.
Proof.
  unfold BatchPanel.tick. destruct job as [j|]; [|reflexivity].
  destruct (String.eqb j ""); [reflexivity|].
  destruct a as [s | m | ]; [|reflexivity|reflexivity].
  cbn [BatchPanel.reports_terminal negb andb existsb is_clear orb].
  destruct (BatchPanel.terminal s); cbn [existsb orb is_clear].
  - rewrite Nat.eqb_refl. reflexivity.
  - reflexivity.
Qed.

(** The callback's only request is the status query of its job. *)
Lemma requests_tick job t a :
  Forall (λ r, is_status_query r = true) (requests (BatchPanel.tick job t a)).
Proof.
  unfold BatchPanel.tick. destruct job as [j|]; [|constructor].
  destruct (String.eqb j ""); [constructor|].
  destruct a as [s | m | ].
  - destruct (BatchPanel.terminal s); repeat constructor.
  - repeat constructor.
  - repeat constructor.
Qed.

Lemma poll_falsy job t answers :
  match job with Some j => String.eqb j "" | None => true end = true →
  BatchPanel.poll job t answers = [].
Proof.
  intros Hj. induction answers as [|a rest IH]; [reflexivity|].
  cbn [BatchPanel.poll]. rewrite (tick_falsy _ _ _ Hj). exact IH.
Qed.

(** Polling is the callback run on the answers up to the first terminal
    status, and on no answer after it. *)
Lemma poll_until_terminal job t answers :
  BatchPanel.poll job t answers
  = concat (BatchPanel.tick job t <$> BatchPanel.until_terminal answers).
Proof.
  induction answers as [|a rest IH]; [reflexivity|].
  cbn [BatchPanel.poll BatchPanel.until_terminal fmap list_fmap concat].
  rewrite tick_clears. f_equal.
  destruct job as [j|].
  - destruct (String.eqb j "") eqn:Hj.
    + cbn [negb andb]. rewrite poll_falsy by exact Hj.
      destruct (BatchPanel.reports_terminal a); [reflexivity|].
      rewrite <- IH. symmetry. apply poll_falsy. exact Hj.
    + cbn [negb andb]. destruct (BatchPanel.reports_terminal a); [reflexivity|].
      exact IH.
  - rewrite poll_falsy by reflexivity.
    destruct (BatchPanel.reports_terminal a); [reflexivity|].
    rewrite <- IH. symmetry. apply poll_falsy. reflexivity.
Qed.

Lemma requests_poll job t answers :
  Forall (λ r, is_status_query r = true) (requests (BatchPanel.poll job t answers)).
Proof.
  induction answers as [|a rest IH]; [constructor|].
  cbn [BatchPanel.poll]. rewrite requests_app. apply Forall_app. split.
  - apply requests_tick.
  - destruct (existsb _ _); [constructor | exact IH].
Qed.

(** Neither the callback nor the polling loop retrieves anything. *)
Lemma tick_retrieves_nothing job t a :
  Forall (λ e, retrieves e = false) (BatchPanel.tick job t a).
Proof.
  unfold BatchPanel.tick. destruct job as [j|]; [|constructor].
  destruct (String.eqb j ""); [constructor|].
  destruct a as [s | m | ].
  - destruct (BatchPanel.terminal s); repeat constructor.
  - repeat constructor.
  - repeat constructor.
Qed.

Lemma poll_retrieves_nothing job t answers :
  Forall (λ e, retrieves e = false) (BatchPanel.poll job t answers).
Proof.
  induction answers as [|a rest IH]; [constructor|].
  cbn [BatchPanel.poll]. apply Forall_app. split.
  - apply tick_retrieves_nothing.
  - destruct (existsb _ _); [constructor | exact IH].
Qed.


(** A [documentFile] request of [handle] is for the selected file. *)
Lemma handle_request file o a f o' :
  documentFile f o' ∈ requests (FilePanel.handle file o a) →
  file = Some f ∧ o' = FilePanel.with_markdown o.
Proof.
  rewrite requests_handle. destruct file as [f'|]; intros H.
  - apply list_elem_of_singleton in H. injection H as -> ->. done.
  - by apply not_elem_of_nil in H.
Qed.

(** A [startBatch] request of a whole batch run comes from [start], and is
    for the selected files, of which there is at least one. *)
Lemma run_start_request files polling o a t answers fs o' :
  startBatch fs o' ∈ requests (BatchPanel.run files polling o a t answers) →
  fs = files ∧ fs ≠ [].
Proof.
  unfold BatchPanel.run. rewrite requests_app, requests_start.
  intros H. apply elem_of_app in H as [H | H].
  - destruct files as [|f l]; [by apply not_elem_of_nil in H|].
    apply list_elem_of_singleton in H. injection H as -> _.
    split; [reflexivity | discriminate].
  - exfalso. destruct files as [|f l]; [by apply not_elem_of_nil in H|].
    destruct a as [resp | m | ];
      [|by apply not_elem_of_nil in H|by apply not_elem_of_nil in H].
    pose proof (requests_poll (job_id resp) t answers) as Hq.
    rewrite Forall_forall in Hq. specialize (Hq _ H). discriminate.
Qed.

End ClientFacts.

Module IntervalFacts.
Import JS Api Effects ClientFacts Interval.

(** The callback of [BatchPanel.start] is its two halves, one after the
    other. *)
Lemma tick_ask_resume job t a :
  BatchPanel.tick job t a
  = match ask job with
    | [] => []
    | es => es ++ resume t a
    end.
Proof.
  unfold BatchPanel.tick, ask, resume. destruct job as [j|]; [|reflexivity].
  destruct (String.eqb j ""); [reflexivity|].
  destruct a as [s | m | ]; reflexivity.
Qed.


Lemma resume_no_request t a : requests (resume t a) = [].
Proof.
  destruct a as [s | m | ]; [|reflexivity|reflexivity].
  cbn [resume]. destruct (BatchPanel.terminal s); reflexivity.
Qed.




Lemma play_app job t s events more :
  play job t s (events ++ more)
  = play job t s events ++ play job t (final job t s events) more.
Proof.
  revert s. induction events as [|e rest IH]; intros s; [reflexivity|].
  cbn [app play final]. rewrite IH. apply app_assoc.
Qed.

Lemma final_app job t s events more :
  final job t s (events ++ more) = final job t (final job t s events) more.
Proof.
  revert s. induction events as [|e rest IH]; intros s; [reflexivity|].
  cbn [app final]. apply IH.
Qed.

Lemma step_stopped job t s e :
  running s = false →
  running (step job t s e).1 = false ∧ requests (step job t s e).2 = [].
Proof.
  intros Hs. destruct e as [|k a]; cbn [step].
  - rewrite Hs. done.
  - destruct (is_waiting k s); [|done]. cbn [fst snd running].
    rewrite Hs. split; [reflexivity | apply resume_no_request].
Qed.

(** Once the interval is cleared no request is made any more. *)
Lemma stopped_no_requests job t s events :
  running s = false → requests (play job t s events) = [].
Proof.
  revert s. induction events as [|e rest IH]; intros s Hs; [reflexivity|].
  cbn [play]. destruct (step_stopped job t s e Hs) as [Hr Hq].
  rewrite requests_app, Hq, (IH _ Hr). reflexivity.
Qed.



(** The interval is stopped exactly when a callback cleared it. *)
Lemma stopped_iff_cleared job t s events :
  running (final job t s events) = false
  ↔ running s = false ∨ clearInterval t ∈ play job t s events.
Proof.
  revert s. induction events as [|e rest IH]; intros s.
  { cbn [final play]. split; [auto|]. intros [H | H]; [exact H|].
    by apply not_elem_of_nil in H. }
  cbn [final play]. rewrite IH, elem_of_app.
  assert (Hstep : running (step job t s e).1 = false
                  ↔ running s = false ∨ clearInterval t ∈ (step job t s e).2).
  { destruct e as [|k a]; cbn [step].
    - destruct (running s) eqn:Hr.
      + unfold ask. destruct job as [j|]; cbn [fst snd].
        * destruct (String.eqb j ""); cbn [fst snd running]; rewrite ?Hr.
          -- split; [auto|]. intros [H | H]; [exact H|].
             by apply not_elem_of_nil in H.
          -- split; [discriminate|]. intros [H | H]; [discriminate|].
             apply list_elem_of_singleton in H. discriminate.
        * rewrite Hr. split; [auto|]. intros [H | H]; [exact H|].
          by apply not_elem_of_nil in H.
      + cbn [fst snd]. rewrite Hr. split; auto.
    - destruct (is_waiting k s); cbn [fst snd running].
      + destruct a as [st | m | ]; cbn [BatchPanel.reports_terminal resume negb].
        * destruct (BatchPanel.terminal st); cbn [negb].
          -- rewrite andb_false_r. split; [|reflexivity]. intros _. right.
             rewrite !elem_of_cons. auto.
          -- rewrite andb_true_r. split; [auto|]. intros [H | H]; [exact H|].
             apply list_elem_of_singleton in H. discriminate.
        * rewrite andb_true_r. split; [auto|]. intros [H | H]; [exact H|].
          by apply not_elem_of_nil in H.
        * rewrite andb_true_r. split; [auto|]. intros [H | H]; [exact H|].
          by apply not_elem_of_nil in H.
      + split; [auto|]. intros [H | H]; [exact H|].
        by apply not_elem_of_nil in H. }
  rewrite Hstep. tauto.
Qed.



End IntervalFacts.

Module ClientClaims.
Import JS Api Effects ClientFacts.

(** C10: the client issues no request for an empty selection.
    [FilePanel.handle] with no file and [BatchPanel.start] with an empty
    file list perform no effect at all, and so do the handlers written
    inline in [App]; a [documentFile] request carries the selected file and
    a [startBatch] request carries the selected files, which are not
    empty. *)
Theorem no_request_without_selection :
  (∀ o a, FilePanel.handle None o a = [])
  ∧ (∀ polling o a t, BatchPanel.start [] polling o a t = [])
  ∧ (∀ o a, App.file_click None o a = [] ∧ App.file_click (Some []) o a = [])
  ∧ (∀ polling o a t,
       App.start None polling o a t = [] ∧ App.start (Some []) polling o a t = [])
  ∧ (∀ file o a f o',
       documentFile f o' ∈ requests (FilePanel.handle file o a) → file = Some f)
  ∧ (∀ files polling o a t answers fs o',
       startBatch fs o' ∈ requests (BatchPanel.run files polling o a t answers) →
       fs = files ∧ fs ≠ [])
  ∧ (∀ input polling o a t fs o',
       startBatch fs o' ∈ requests (App.start input polling o a t) →
       input = Some fs ∧ fs ≠ []).
Proof.
  split; [reflexivity|]. split; [reflexivity|].
  split; [intros; split; reflexivity|].
  split; [intros; split; reflexivity|].
  split; [|split].
  - intros file o a f o' H. apply handle_request in H. tauto.
  - intros files polling o a t answers fs o' H.
    apply run_start_request in H. exact H.
  - intros input polling o a t fs o' H.
    rewrite requests_app_start in H. destruct input as [[|f l]|]; cbn in H.
    + by apply not_elem_of_nil in H.
    + apply list_elem_of_singleton in H. injection H as -> _.
      split; [reflexivity | discriminate].
    + by apply not_elem_of_nil in H.
Qed.



End ClientClaims.

(** * Properties of the pipeline model *)

Module AssemblerFacts.
Import Pipeline.

Lemma in_source_order_weaken units from from' :
  from' ≤ from → in_source_order from units = true →
  in_source_order from' units = true.
Proof.
  destruct units as [|u rest]; [done|].
  cbn [in_source_order]. rewrite !andb_true_iff, !Nat.leb_le. intros ? [? ?].
  split; [lia | assumption].
Qed.

(** Nothing is put before the first unit. *)
Lemma shift_before units from i :
  in_source_order from units = true → i < from → shift units i = 0.
Proof.
  revert from. induction units as [|u rest IH]; intros from Hord Hi; [done|].
  cbn [in_source_order shift] in *.
  apply andb_true_iff in Hord as [Hle Hord]. apply Nat.leb_le in Hle.
  rewrite (IH (start (span u))) by (assumption || lia).
  replace (Nat.leb (start (span u)) i) with false
    by (symmetry; apply Nat.leb_gt; lia).
  rewrite andb_false_r. reflexivity.
Qed.

Lemma shift_mono units i j : i ≤ j → shift units i ≤ shift units j.
Proof.
  intros Hij. induction units as [|u rest IH]; [done|].
  cbn [shift]. destruct (is_ok u); cbn [andb]; [|lia].
  destruct (Nat.leb (start (span u)) i) eqn:Hi.
  - apply Nat.leb_le in Hi.
    replace (Nat.leb (start (span u)) j) with true
      by (symmetry; apply Nat.leb_le; lia).
    lia.
  - destruct (Nat.leb (start (span u)) j); lia.
Qed.

(** Every source byte is in the body, moved right by the documentation put
    at or before it. *)
Lemma inline_from_lookup units pos src j b :
  in_source_order pos units = true →
  src !! j = Some b →
  inline_from pos src units !! (j + shift units (pos + j)) = Some b.
Proof.
  revert pos src j.
  induction units as [|u rest IH]; intros pos src j Hord Hj.
  { cbn [inline_from shift]. by rewrite Nat.add_0_r. }
  cbn [in_source_order] in Hord.
  apply andb_true_iff in Hord as [Hle Hord]. apply Nat.leb_le in Hle.
  pose proof (lookup_lt_Some _ _ _ Hj) as Hlen.
  cbn [inline_from shift]. destruct (is_ok u) eqn:Hok; cbn [andb].
  - set (k := start (span u) - pos).
    destruct (decide (j < k)) as [Hlt | Hge].
    + replace (Nat.leb (start (span u)) (pos + j)) with false
        by (symmetry; apply Nat.leb_gt; lia).
      rewrite (shift_before rest (start (span u))) by (assumption || lia).
      rewrite !Nat.add_0_r.
      rewrite lookup_app_l by (rewrite length_take; lia).
      by rewrite lookup_take_lt.
    + replace (Nat.leb (start (span u)) (pos + j)) with true
        by (symmetry; apply Nat.leb_le; lia).
      rewrite lookup_app_r by (rewrite length_take; lia).
      rewrite length_take_le by lia.
      rewrite lookup_app_r by lia.
      replace (j + (length (documentation u) + shift rest (pos + j)) - k
               - length (documentation u))
        with ((j - k) + shift rest ((pos + k) + (j - k))).
      2:{ replace (pos + k + (j - k)) with (pos + j) by lia. lia. }
      apply IH.
      * replace (pos + k) with (start (span u)) by lia. exact Hord.
      * rewrite lookup_drop. replace (k + (j - k)) with j by lia. exact Hj.
  - apply IH; [|exact Hj].
    apply (in_source_order_weaken _ (start (span u))); assumption.
Qed.

Lemma inline_from_length units pos src :
  length (inline_from pos src units) = length src + inserted units.
Proof.
  revert pos src. induction units as [|u rest IH]; intros pos src.
  { cbn [inline_from inserted]. lia. }
  cbn [inline_from inserted]. destruct (is_ok u).
  - rewrite !length_app, IH, length_take, length_drop. lia.
  - rewrite IH. lia.
Qed.

(** Units without generated documentation leave no trace in the body. *)
Lemma inline_from_ok_only units pos src :
  inline_from pos src units
  = inline_from pos src (filter (λ u, is_ok u = true) units).
Proof.
  revert pos src. induction units as [|u rest IH]; intros pos src; [done|].
  cbn [inline_from]. destruct (is_ok u) eqn:Hok.
  - rewrite filter_cons_True by exact Hok.
    cbn [inline_from]. rewrite Hok. by rewrite <- IH.
  - rewrite filter_cons_False by (rewrite Hok; discriminate). apply IH.
Qed.

(** Cutting the documentation out again gives the source back. *)
Lemma strip_inline units pos src :
  in_range (pos + length src) units = true →
  strip_from pos (inline_from pos src units) units = src.
Proof.
  revert pos src. induction units as [|u rest IH]; intros pos src Hr; [done|].
  cbn [in_range forallb] in Hr. apply andb_true_iff in Hr as [Hu Hr].
  apply Nat.leb_le in Hu.
  cbn [inline_from strip_from]. destruct (is_ok u).
  - set (k := start (span u) - pos).
    assert (Hk : k ≤ length src) by lia.
    assert (Hlen : length (take k src) = k) by (rewrite length_take; lia).
    rewrite take_app_length' by (symmetry; exact Hlen).
    rewrite app_assoc.
    rewrite drop_app_length' by (rewrite length_app, Hlen; reflexivity).
    rewrite IH.
    + apply take_drop.
    + rewrite length_drop. replace (pos + k + (length src - k)) with (pos + length src) by lia.
      exact Hr.
  - apply IH. exact Hr.
Qed.

Lemma error_summary_complete units u r :
  u ∈ units → gen_status u = failed r → (span u, r) ∈ error_summary units.
Proof.
  intros Hu Hs. unfold error_summary. apply list_elem_of_omap.
  exists u. split; [exact Hu|]. unfold failure_of. by rewrite Hs.
Qed.

Lemma error_summary_length units :
  length (error_summary units) = length (filter (λ u, is_failed u = true) units).
Proof.
  induction units as [|u rest IH]; [done|].
  unfold error_summary in *. cbn [omap list_omap].
  destruct (gen_status u) as [| |r] eqn:Hs.
  - rewrite filter_cons_False by (unfold is_failed; rewrite Hs; discriminate).
    unfold failure_of at 1. rewrite Hs. exact IH.
  - rewrite filter_cons_False by (unfold is_failed; rewrite Hs; discriminate).
    unfold failure_of at 1. rewrite Hs. exact IH.
  - rewrite filter_cons_True by (unfold is_failed; rewrite Hs; reflexivity).
    unfold failure_of at 1. rewrite Hs. cbn [length]. by rewrite IH.
Qed.

End AssemblerFacts.

Module DocumenterFacts.
Import Pipeline.

Section Facts.
Context {W : Type} `{!ProviderAdapter W}.
Variable build_prompt : SourceUnit → GenerationOptions → list byte.
Variable postprocess : list byte → list byte.

Abbreviation call := (call_with_retry postprocess).
Abbreviation document := (document_unit build_prompt postprocess).
Abbreviation fan_out := (document_units build_prompt postprocess).

(** One turn of the retry loop. *)
Lemma call_with_retry_eq prompt o invalid_left retries_left w :
  call prompt o invalid_left retries_left w
  = let '(r, w') := generate prompt o w in
    match r with
    | generated t => finish ok (postprocess t) r w'
    | failure f =>
        match f with
        | auth_failure => finish (failed AuthFailure) [] r w'
        | rate_limited _ | timed_out =>
            match retries_left with
            | S n => received r (call prompt o invalid_left n w')
            | O => finish (failed (kind_of f)) [] r w'
            end
        | invalid_response =>
            match invalid_left with
            | S m => received r (call prompt o m retries_left w')
            | O => finish (failed InvalidResponse) [] r w'
            end
        end
    end.
Proof. destruct invalid_left, retries_left; reflexivity. Qed.

(** Induction along the calls of the retry loop. *)
Lemma call_with_retry_ind prompt o (P : nat → nat → Attempt → Prop) :
  (∀ i n r w, transient_or_invalid r = false →
     P i n (finish (final_status r) (final_text postprocess r) r w)) →
  (∀ i r w, is_transient r = true →
     P i 0 (finish (final_status r) [] r w)) →
  (∀ n r w, is_invalid r = true →
     P 0 n (finish (final_status r) [] r w)) →
  (∀ i n r w, is_transient r = true →
     P i n (call prompt o i n w) → P i (S n) (received r (call prompt o i n w))) →
  (∀ i n r w, is_invalid r = true →
     P i n (call prompt o i n w) → P (S i) n (received r (call prompt o i n w))) →
  ∀ i n w, P i n (call prompt o i n w).
Proof.
  intros Hdone Hout Hinv Hretry Hagain.
  induction i as [|i IHi]; induction n as [|n IHn]; intros w;
    rewrite call_with_retry_eq; destruct (generate prompt o w) as [r w'];
    destruct r as [t | [ | hint | | ]];
    first
      [ apply (Hdone _ _ (generated t)); reflexivity
      | apply (Hdone _ _ (failure auth_failure)); reflexivity
      | apply (Hout _ (failure (rate_limited hint))); reflexivity
      | apply (Hout _ (failure timed_out)); reflexivity
      | apply (Hinv _ (failure invalid_response)); reflexivity
      | apply (Hretry _ _ (failure (rate_limited hint))); [reflexivity | apply IHn]
      | apply (Hretry _ _ (failure timed_out)); [reflexivity | apply IHn]
      | apply (Hagain _ _ (failure invalid_response)); [reflexivity | apply IHi] ].
Qed.

(** *** The replies of one unit *)

Lemma retried_single (r : Reply) : retried [r] = [].
Proof. reflexivity. Qed.

Lemma retried_cons (r : Reply) rs : rs ≠ [] → retried (r :: rs) = r :: retried rs.
Proof.
  destruct rs as [|r' rs]; [done|]. intros _. unfold retried.
  cbn [length]. rewrite !Nat.sub_succ, !Nat.sub_0_r. reflexivity.
Qed.

Lemma retried_snoc rs (r : Reply) : retried (rs ++ [r]) = rs.
Proof.
  unfold retried. rewrite length_app. cbn [length].
  apply take_app_length'. lia.
Qed.

(** A unit's generation makes at least one call. *)
Lemma replies_nonempty prompt o i n w : replies (call prompt o i n w) ≠ [].
Proof.
  apply (call_with_retry_ind prompt o (λ _ _ a, replies a ≠ [])); intros; discriminate.
Qed.

(** The retries made on a RateLimited or Timeout answer stay within the
    retry budget. *)
Lemma transient_retries_bounded prompt o i n w :
  length (filter (λ r, is_transient r = true) (retried (replies (call prompt o i n w)))) ≤ n.
Proof.
  apply (call_with_retry_ind prompt o
           (λ _ n a, length (filter (λ r, is_transient r = true) (retried (replies a))) ≤ n));
    clear; intros; cbn [finish received replies retried_single].
  - cbn. lia.
  - cbn. lia.
  - cbn. lia.
  - rewrite retried_cons by apply replies_nonempty.
    rewrite filter_cons_True by assumption. cbn [length]. lia.
  - rewrite retried_cons by apply replies_nonempty.
    rewrite filter_cons_False; [assumption|].
    destruct r as [t | []]; cbn in *; congruence.
Qed.

(** So do the retries made on an InvalidResponse. *)
Lemma invalid_retries_bounded prompt o i n w :
  length (filter (λ r, is_invalid r = true) (retried (replies (call prompt o i n w)))) ≤ i.
Proof.
  apply (call_with_retry_ind prompt o
           (λ i _ a, length (filter (λ r, is_invalid r = true) (retried (replies a))) ≤ i));
    clear; intros; cbn [finish received replies].
  - cbn. lia.
  - cbn. lia.
  - cbn. lia.
  - rewrite retried_cons by apply replies_nonempty.
    rewrite filter_cons_False; [assumption|].
    destruct r as [t | []]; cbn in *; congruence.
  - rewrite retried_cons by apply replies_nonempty.
    rewrite filter_cons_True by assumption. cbn [length]. lia.
Qed.

(** All calls in all: one, and one more for each retry. *)
Lemma replies_bounded prompt o i n w :
  length (replies (call prompt o i n w)) ≤ S (n + i).
Proof.
  apply (call_with_retry_ind prompt o (λ i n a, length (replies a) ≤ S (n + i)));
    clear; intros; cbn [finish received replies length]; lia.
Qed.

(** When no answer is an InvalidResponse the retries are those of the retry
    budget. *)
Lemma replies_bounded_transient prompt o i n w :
  Forall (λ r, is_invalid r = false) (replies (call prompt o i n w)) →
  length (retried (replies (call prompt o i n w))) ≤ n.
Proof.
  apply (call_with_retry_ind prompt o
           (λ _ n a, Forall (λ r, is_invalid r = false) (replies a) →
                     length (retried (replies a)) ≤ n));
    clear; intros; cbn [finish received replies] in *.
  - cbn. lia.
  - cbn. lia.
  - cbn. lia.
  - rewrite retried_cons by apply replies_nonempty. cbn [length].
    apply Forall_cons in H1 as [_ Hrest]. specialize (H0 Hrest). lia.
  - apply Forall_cons in H1 as [Hr _]. congruence.
Qed.

(** The unit ends with the status of its last reply: generated text, or
    the kind of the last failure. *)
Lemma status_of_last prompt o i n w :
  ∃ r, last (replies (call prompt o i n w)) = Some r
       ∧ status (call prompt o i n w) = final_status r
       ∧ text (call prompt o i n w) = final_text postprocess r.
Proof.
  apply (call_with_retry_ind prompt o
           (λ _ _ a, ∃ r, last (replies a) = Some r ∧ status a = final_status r
                          ∧ text a = final_text postprocess r));
    clear; intros; cbn [finish received replies status text].
  - exists r. done.
  - exists r. destruct r as [t | f]; [discriminate | done].
  - exists r. destruct r as [t | f]; [discriminate | done].
  - destruct H0 as (r' & Hl & Hs). exists r'. split; [|exact Hs].
    rewrite last_cons, Hl. reflexivity.
  - destruct H0 as (r' & Hl & Hs). exists r'. split; [|exact Hs].
    rewrite last_cons, Hl. reflexivity.
Qed.

(** A reply that was retried was a RateLimited, a Timeout or an
    InvalidResponse. *)
Lemma retried_failures prompt o i n w :
  Forall (λ r, transient_or_invalid r = true) (retried (replies (call prompt o i n w))).
Proof.
  apply (call_with_retry_ind prompt o
           (λ _ _ a, Forall (λ r, transient_or_invalid r = true) (retried (replies a))));
    clear; intros; cbn [finish received replies].
  - constructor.
  - constructor.
  - constructor.
  - rewrite retried_cons by apply replies_nonempty. constructor; [|assumption].
    unfold transient_or_invalid. rewrite H. reflexivity.
  - rewrite retried_cons by apply replies_nonempty. constructor; [|assumption].
    unfold transient_or_invalid. rewrite H. apply orb_true_r.
Qed.

(** When the budget is used up, that is when one more transient failure
    than the budget allows retries was received, the unit is failed with the
    kind of that last failure. *)
Lemma exhausted_is_failed prompt o i n w :
  length (filter (λ r, is_transient r = true) (replies (call prompt o i n w))) = S n →
  ∃ f, transient f = true
       ∧ last (replies (call prompt o i n w)) = Some (failure f)
       ∧ status (call prompt o i n w) = failed (kind_of f).
Proof.
  intros Hcount.
  destruct (status_of_last prompt o i n w) as (r & Hlast & Hstatus & _).
  pose proof (transient_retries_bounded prompt o i n w) as Hb.
  apply last_Some in Hlast as [rs Hrs].
  rewrite Hrs in Hcount, Hb. rewrite retried_snoc in Hb.
  rewrite filter_app, length_app in Hcount.
  destruct (is_transient r) eqn:Hr.
  - destruct r as [t | f]; [discriminate|].
    exists f. rewrite Hrs, last_snoc. done.
  - rewrite filter_cons_False in Hcount by congruence.
    rewrite filter_nil in Hcount. cbn [length] in Hcount. lia.
Qed.

(** *** The fan-out over the units of a file *)

Lemma lookup_undispatched (rest : list SourceUnit) i (du : DocumentedUnit) :
  ((λ _, None) <$> rest) !! i ≠ Some (Some du).
Proof.
  rewrite list_lookup_fmap. destruct (rest !! i); discriminate.
Qed.

Lemma results_length limit o units w :
  length (results (fan_out limit o units w)) = length units.
Proof.
  revert w. induction units as [|u rest IH]; intros w; [done|].
  cbn [document_units].
  destruct (status (document limit o u w)) as [| | []];
    cbn [results length]; rewrite ?IH, ?length_fmap; reflexivity.
Qed.

(** A result is the Unit Documenter's outcome for the unit at its index. *)
Lemma results_dispatched limit o units w i du :
  results (fan_out limit o units w) !! i = Some (Some du) →
  ∃ u w0, units !! i = Some u ∧ du = result_of u (document limit o u w0).
Proof.
  revert w i. induction units as [|u rest IH]; intros w i; [done|].
  cbn [document_units].
  destruct (status (document limit o u w)) as [| | []] eqn:Hs; cbn [results];
    destruct i as [|i]; cbn [lookup list_lookup];
    try (intros [= <-]; exists u, w; done);
    try (intros Hi; destruct (IH _ _ Hi) as (u' & w0 & ? & ?); exists u', w0; done).
  intros Hi. exfalso. exact (lookup_undispatched _ _ _ Hi).
Qed.

(** A unit goes without a result only after an AuthFailure on a unit
    before it. *)
Lemma results_not_dispatched limit o units w i :
  results (fan_out limit o units w) !! i = Some None →
  ∃ j du, j < i ∧ results (fan_out limit o units w) !! j = Some (Some du)
          ∧ gen_status du = failed AuthFailure.
Proof.
  revert w i. induction units as [|u rest IH]; intros w i; [done|].
  cbn [document_units].
  destruct (status (document limit o u w)) as [| | []] eqn:Hs; cbn [results];
    destruct i as [|i]; cbn [lookup list_lookup];
    try discriminate;
    try (intros Hi; destruct (IH _ _ Hi) as (j & du & ? & ? & ?);
         exists (S j), du; split; [lia | done]).
  intros _. exists 0, (result_of u (document limit o u w)).
  split; [lia|]. split; [reflexivity|]. exact Hs.
Qed.

End Facts.
End DocumenterFacts.

Module PipelineClaims.
Import Pipeline AssemblerFacts DocumenterFacts.

(** C2: for units in source order that start within the file, the inline
    body gives the source back when the documentation of the successful
    units is cut out again; every source byte is in the body, unchanged,
    at its offset moved right by the documentation put at or before it, and
    in the original order; the body has the source's bytes and the
    successful units' documentation and nothing else, so a unit that failed
    (or was skipped) is left without annotation; and every failed unit is
    an entry of the file-level error summary, which has as many entries as
    there are failed units. *)
Theorem inline_round_trip content units :
  in_source_order 0 units = true →
  in_range (length content) units = true →
  strip_from 0 (body (assemble_inline content units)) units = content
  ∧ (∀ i b, content !! i = Some b →
            body (assemble_inline content units) !! (i + shift units i) = Some b)
  ∧ (∀ i j, i < j → i + shift units i < j + shift units j)
  ∧ length (body (assemble_inline content units)) = length content + inserted units
  ∧ body (assemble_inline content units)
    = body (assemble_inline content (filter (λ u, is_ok u = true) units))
  ∧ (∀ u r, u ∈ units → gen_status u = failed r →
            (span u, r) ∈ errors (assemble_inline content units))
  ∧ length (errors (assemble_inline content units))
    = length (filter (λ u, is_failed u = true) units).
Proof.
  intros Hord Hrange. unfold assemble_inline; cbn [body errors].
  split; [|split; [|split; [|split; [|split; [|split]]]]].
  - apply strip_inline. exact Hrange.
  - intros i b Hi. apply (inline_from_lookup units 0 content i b Hord Hi).
  - intros i j Hij. pose proof (shift_mono units i j). lia.
  - apply inline_from_length.
  - apply inline_from_ok_only.
  - apply error_summary_complete.
  - apply error_summary_length.
Qed.

(** The theorem at a file of two functions, the second of which failed. *)
Lemma inline_round_trip_witness :
  in_source_order 0 Samples.units = true
  ∧ in_range (length Samples.source) Samples.units = true
  ∧ strip_from 0 (body (assemble_inline Samples.source Samples.units)) Samples.units
    = Samples.source
  ∧ body (assemble_inline Samples.source Samples.units)
    = Samples.bytes "# f does nothing;def f(): pass;def g(): pass"
  ∧ errors (assemble_inline Samples.source Samples.units)
    = [({| kind := function; start := 14; stop := 27 |}, RateLimited)].
Proof.
  split; [reflexivity|]. split; [reflexivity|].
  split; [|split; reflexivity].
  exact (proj1 (inline_round_trip Samples.source Samples.units eq_refl eq_refl)).
Defined.

Section Documenter.
Context {W : Type} `{!ProviderAdapter W}.
Variable build_prompt : SourceUnit → GenerationOptions → list byte.
Variable postprocess : list byte → list byte.

Abbreviation document := (document_unit build_prompt postprocess).
Abbreviation fan_out := (document_units build_prompt postprocess).

(** C4: whatever the provider answers, the retries a unit's generation
    makes on RateLimited or Timeout answers never exceed the retry limit
    (they are all its retries when no answer is an InvalidResponse, and
    there is at most one more otherwise); the unit ends with the status of
    its last reply, and once the limit is used up it is failed with the
    kind of its last failure.  In the results of a file every unit has its place: a result
    is the Unit Documenter's outcome for the unit at that index, and a unit
    goes without one only when a unit before it met an AuthFailure, never
    because a sibling failed after its retries. *)
Theorem retries_bounded_failure_kept (retry_limit : nat) (o : GenerationOptions) :
  (∀ u w,
     length (filter (λ r, is_transient r = true)
               (retried (replies (document retry_limit o u w)))) ≤ retry_limit
     ∧ length (retried (replies (document retry_limit o u w))) ≤ retry_limit + 1
     ∧ (∃ r, last (replies (document retry_limit o u w)) = Some r
             ∧ status (document retry_limit o u w) = final_status r)
     ∧ (Forall (λ r, is_invalid r = false) (replies (document retry_limit o u w)) →
        length (retried (replies (document retry_limit o u w))) ≤ retry_limit)
     ∧ (length (filter (λ r, is_transient r = true)
                  (replies (document retry_limit o u w))) = S retry_limit →
        ∃ f, transient f = true
             ∧ last (replies (document retry_limit o u w)) = Some (failure f)
             ∧ status (document retry_limit o u w) = failed (kind_of f)))
  ∧ (∀ units w,
       length (results (fan_out retry_limit o units w)) = length units
       ∧ (∀ i du, results (fan_out retry_limit o units w) !! i = Some (Some du) →
                  ∃ u w0, units !! i = Some u
                          ∧ du = result_of u (document retry_limit o u w0))
       ∧ (∀ i, results (fan_out retry_limit o units w) !! i = Some None →
               ∃ j du, j < i
                       ∧ results (fan_out retry_limit o units w) !! j = Some (Some du)
                       ∧ gen_status du = failed AuthFailure)).
Proof.
  split.
  - intros u w. unfold document_unit. split; [|split; [|split; [|split]]].
    + apply transient_retries_bounded.
    + pose proof (replies_bounded postprocess (build_prompt u o) o
                    1 retry_limit w) as Hb.
      unfold retried. rewrite length_take. lia.
    + destruct (status_of_last postprocess (build_prompt u o) o
                  1 retry_limit w) as (r & Hl & Hs & _).
      exists r. done.
    + apply replies_bounded_transient.
    + apply exhausted_is_failed.
  - intros units w. split; [|split].
    + apply results_length.
    + intros i du. apply results_dispatched.
    + intros i. apply results_not_dispatched.
Qed.

End Documenter.

(** The theorem at a provider that is rate limited and times out four
    times in a row, with a retry limit of 2: the first unit is failed after
    three calls, with the kind of the third failure, and the second unit is
    documented all the same. *)
Lemma retries_bounded_failure_kept_witness :
  length (retried (replies (document_unit Samples.plain_prompt id 2 Samples.options
                              (Samples.source_unit 0 "def f(): pass") Samples.script))) ≤ 2
  ∧ status (document_unit Samples.plain_prompt id 2 Samples.options
              (Samples.source_unit 0 "def f(): pass") Samples.script)
    = failed Timeout
  ∧ fmap (M:=list) (fmap (M:=option) gen_status)
      (results (document_units Samples.plain_prompt id 2 Samples.options Samples.source_units Samples.script))
    = [Some (failed Timeout); Some ok].
Proof.
  split; [|split; reflexivity].
  apply (proj1 (proj2 (proj2 (proj2
           (proj1 (retries_bounded_failure_kept Samples.plain_prompt id 2 Samples.options)
              (Samples.source_unit 0 "def f(): pass") Samples.script))))).
  vm_compute. repeat constructor.
Defined.

End PipelineClaims.

(** * Further properties of the client *)

Module ProviderFacts.
Import JS Api AppModel.

Lemma first_model_offered p : first_model p ∈ models p.
Proof.
  destruct p; unfold first_model; cbn [models head]; unfold str_or;
    match goal with |- context [String.eqb ?a ?b] =>
      replace (String.eqb a b) with false by reflexivity end;
    rewrite !elem_of_cons; auto.
Qed.

Lemma models_named p m : m ∈ models p → m ≠ "".
Proof.
  destruct p; cbn [models]; rewrite !elem_of_cons;
    intros H; repeat (destruct H as [-> | H]; [discriminate|]);
    by apply not_elem_of_nil in H.
Qed.

(** No model is offered for two providers. *)
Lemma models_disjoint p q m :
  m ∈ models p → m ∈ models q → same_provider p q = true.
Proof.
  destruct p, q; try reflexivity; cbn [models]; rewrite !elem_of_cons;
    intros H H'; exfalso;
    repeat (destruct H as [-> | H];
            [repeat (destruct H' as [H' | H']; [discriminate|]);
             by apply not_elem_of_nil in H'|]);
    by apply not_elem_of_nil in H.
Qed.

(** Once the effect has run the model is one of the provider's. *)
Definition settled_offered (s : Selection) : Prop :=
  pending s = false → model s ∈ models (provider s).

Lemma step_settled_offered s e : settled_offered s → settled_offered (step s e).
Proof.
  intros Hs. destruct e as [p | | i]; cbn [step].
  - destruct (same_provider p (provider s)); [exact Hs|]. intros [=].
  - destruct (pending s) eqn:Hp; [|exact Hs].
    intros _. cbn [model provider]. apply first_model_offered.
  - destruct (models (provider s) !! i) as [m|] eqn:Hm; [|exact Hs].
    intros _. cbn [model provider]. apply list_elem_of_lookup. by exists i.
Qed.

Lemma foldl_step_settled_offered events s :
  settled_offered s → settled_offered (foldl step s events).
Proof.
  revert s. induction events as [|e rest IH]; intros s Hs; [exact Hs|].
  cbn [foldl]. apply IH, step_settled_offered, Hs.
Qed.

Lemma run_snoc events e : run (events ++ [e]) = step (run events) e.
Proof. unfold run. by rewrite foldl_app. Qed.

(** X1: whatever the user clicks in the Provider panel, once the effect
    that follows a change of provider has run, the model in the state is one
    of the models offered for the provider in the state, and it is not
    empty; the effect always leaves such a state.  Between a click on
    another provider and that effect the App is rendered with the new
    provider and the model it had, which is not a model of the new
    provider. *)
Theorem model_offered_for_provider events style verbosity :
  (pending (run events) = false →
     model (run events) ∈ models (provider (run events))
     ∧ model (run events) ≠ ""
     ∧ Api.model (options_of (run events) style verbosity)
       ∈ models (Api.provider (options_of (run events) style verbosity)))
  ∧ (pending (run (events ++ [effect])) = false
     ∧ provider (run (events ++ [effect])) = provider (run events)
     ∧ model (run (events ++ [effect])) ∈ models (provider (run events)))
  ∧ (∀ p, pending (run events) = false →
          same_provider p (provider (run events)) = false →
          provider (run (events ++ [click_provider p])) = p
          ∧ model (run (events ++ [click_provider p])) = model (run events)
          ∧ (model (run (events ++ [click_provider p])) ∉ models p)
          ∧ pending (run (events ++ [click_provider p])) = true).
Proof.
  assert (H : settled_offered (run events)).
  { apply foldl_step_settled_offered. intros _. cbn [initial model provider models].
    rewrite !elem_of_cons. auto. }
  split; [|split].
  - intros Hp. specialize (H Hp). split; [exact H|]. split; [|exact H].
    apply (models_named _ _ H).
  - rewrite run_snoc. cbn [step]. destruct (pending (run events)) eqn:Hp.
    + cbn [pending provider model]. split; [reflexivity|]. split; [reflexivity|].
      apply first_model_offered.
    + split; [exact Hp|]. split; [reflexivity|]. exact (H Hp).
  - intros p Hp Hdiff. rewrite run_snoc. cbn [step]. rewrite Hdiff.
    cbn [pending provider model]. split; [reflexivity|]. split; [reflexivity|].
    split; [|reflexivity]. intros Hin.
    pose proof (models_disjoint _ _ _ Hin (H Hp)) as Hsame.
    rewrite Hsame in Hdiff. discriminate.
Qed.

(** The theorem at a click on [openai] in the initial state: the App is
    rendered with [openai] and [deepseek-r1] until the effect has run. *)
Lemma model_offered_for_provider_witness :
  provider (run ([] ++ [click_provider openai])) = openai
  ∧ model (run ([] ++ [click_provider openai])) = "deepseek-r1"
  ∧ (model (run ([] ++ [click_provider openai])) ∉ models openai)
  ∧ pending (run ([] ++ [click_provider openai])) = true.
Proof.
  refine (proj2 (proj2 (model_offered_for_provider [] "google" "medium")) openai _ _);
    reflexivity.
Defined.

End ProviderFacts.

Module ViewFacts.
Import JS Api Effects View.

Lemma settle_app es es' v : settle (es ++ es') v = settle es' (settle es v).
Proof. unfold settle. apply foldl_app. Qed.


Lemma loading_at_calls_show l f resp :
  loading_at_calls l (FilePanel.show f resp ++ [setLoading false]) = [].
Proof. destruct resp as [b | [doc|] |]; reflexivity. Qed.

Lemma loading_settle_show f resp v :
  loading (settle (FilePanel.show f resp ++ [setLoading false]) v) = false.
Proof. destruct resp as [b | [doc|] |]; reflexivity. Qed.

Lemma loading_at_calls_schedule l polling resp t :
  loading_at_calls l (BatchPanel.schedule polling resp t ++ [setLoading false]) = [].
Proof. destruct polling as [[|p]|]; reflexivity. Qed.

Lemma loading_settle_schedule polling resp t v :
  loading (settle (BatchPanel.schedule polling resp t ++ [setLoading false]) v) = false.
Proof. destruct polling as [[|p]|]; reflexivity. Qed.

(** X2: every request of [FilePanel.handle], [BatchPanel.start] and the
    code tab's Generate is made while [loading] is true, and when the
    handler has run [loading] is false again, whether the request was
    answered or rejected. *)
Theorem requests_made_while_loading :
  (∀ file o a v,
     Forall (λ l, l = true) (loading_at_calls (loading v) (FilePanel.handle file o a)))
  ∧ (∀ f o a v, loading (settle (FilePanel.handle (Some f) o a) v) = false)
  ∧ (∀ files polling o a t v,
       Forall (λ l, l = true)
         (loading_at_calls (loading v) (BatchPanel.start files polling o a t)))
  ∧ (∀ f fs polling o a t v,
       loading (settle (BatchPanel.start (f :: fs) polling o a t) v) = false)
  ∧ (∀ r a v,
       loading_at_calls (loading v) (App.code_click r a) = [true]
       ∧ loading (settle (App.code_click r a) v) = false).
Proof.
  split; [|split; [|split; [|split]]].
  - intros [f|] o a v; [|constructor].
    unfold FilePanel.handle. cbn [app loading_at_calls].
    destruct a as [resp | m | ].
    + rewrite loading_at_calls_show. repeat constructor.
    + repeat constructor.
    + repeat constructor.
  - intros f o a v. unfold FilePanel.handle. cbn [app].
    destruct a as [resp | m | ]; [|reflexivity|reflexivity].
    change (settle (?a :: ?b :: ?c :: ?d :: ?l) v)
      with (settle l (settle [a; b; c; d] v)).
    apply loading_settle_show.
  - intros [|f fs] polling o a t v; [constructor|].
    unfold BatchPanel.start. cbn [loading_at_calls].
    destruct a as [resp | m | ].
    + rewrite loading_at_calls_schedule. repeat constructor.
    + repeat constructor.
    + repeat constructor.
  - intros f fs polling o a t v. unfold BatchPanel.start.
    destruct a as [resp | m | ]; [|reflexivity|reflexivity].
    change (settle (?a :: ?b :: ?l) v) with (settle l (settle [a; b] v)).
    apply loading_settle_schedule.
  - intros r a v. unfold App.code_click.
    destruct a as [res | m | ]; [destruct (success res)| |]; split; reflexivity.
Qed.


End ViewFacts.

Module FileNameFacts.
Import JS Api FilePanel.

Lemma list_ascii_of_string_app (a b : string) :
  String.list_ascii_of_string (a +:+ b)
  = String.list_ascii_of_string a ++ String.list_ascii_of_string b.
Proof.
  induction a as [|c a IH]; [reflexivity|].
  change (c :: String.list_ascii_of_string (a +:+ b)
          = c :: (String.list_ascii_of_string a ++ String.list_ascii_of_string b)).
  by rewrite IH.
Qed.

(** Without a dot there is nothing to split at. *)
Lemma split_at_dot_none (l : list Ascii.ascii) :
  "."%char ∉ l → split_at_dot l = None.
Proof.
  induction l as [|c l IH]; [reflexivity|].
  rewrite not_elem_of_cons. intros [Hc Hl]. cbn [split_at_dot].
  destruct (Ascii.eqb c ".") eqn:Hd; [apply Ascii.eqb_eq in Hd; congruence|].
  rewrite (IH Hl). reflexivity.
Qed.

(** The split is at the first dot. *)
Lemma split_at_dot_first (e r : list Ascii.ascii) :
  "."%char ∉ e → split_at_dot (e ++ "."%char :: r) = Some (e, r).
Proof.
  induction e as [|c e IH]; [reflexivity|].
  rewrite not_elem_of_cons. intros [Hc He]. cbn [app split_at_dot].
  destruct (Ascii.eqb c ".") eqn:Hd; [apply Ascii.eqb_eq in Hd; congruence|].
  rewrite (IH He). reflexivity.
Qed.

(** X4: [strip_extension] takes off the last dot and what follows it when
    something follows it, and nothing else: a name [stem.ext], with [ext]
    not empty and without a dot, becomes [stem]; a name without a dot and a
    name that ends in a dot stay as they are.  So when the service answers
    a file [stem.ext] with a Blob, [handle] saves it as [stem_docs.md]. *)
Theorem strip_extension_last_dot :
  (∀ stem ext,
     ext ≠ "" → "."%char ∉ String.list_ascii_of_string ext →
     strip_extension (stem +:+ "." +:+ ext) = stem)
  ∧ (∀ name,
       "."%char ∉ String.list_ascii_of_string name → strip_extension name = name)
  ∧ (∀ stem, strip_extension (stem +:+ ".") = stem +:+ ".")
  ∧ (∀ stem ext n o blob,
       ext ≠ "" → "."%char ∉ String.list_ascii_of_string ext →
       Effects.download blob (stem +:+ "_docs.md")
       ∈ handle (Some {| name := stem +:+ "." +:+ ext; size := n |}) o
           (Resolved (RespBlob blob))).
Proof.
  assert (Hstem : ∀ stem ext,
     ext ≠ "" → "."%char ∉ String.list_ascii_of_string ext →
     strip_extension (stem +:+ "." +:+ ext) = stem); [|split; [exact Hstem|split; [|split]]].
  - intros stem ext Hext Hdot. unfold strip_extension.
    rewrite !list_ascii_of_string_app. cbn [String.list_ascii_of_string app].
    rewrite rev_app_distr. cbn [rev]. rewrite <- app_assoc. cbn [app].
    rewrite split_at_dot_first.
    2:{ intros Hin. apply Hdot. apply list_elem_of_In.
        apply list_elem_of_In, in_rev in Hin. exact Hin. }
    destruct (rev (String.list_ascii_of_string ext)) as [|c l] eqn:Hrev.
    + exfalso. apply Hext.
      apply (f_equal (@rev _)) in Hrev. rewrite rev_involutive in Hrev.
      cbn in Hrev. destruct ext; [reflexivity | discriminate].
    + rewrite rev_involutive. apply String.string_of_list_ascii_of_string.
  - intros name Hdot. unfold strip_extension.
    rewrite split_at_dot_none; [reflexivity|].
    intros Hin. apply Hdot. apply list_elem_of_In.
    apply list_elem_of_In, in_rev in Hin. exact Hin.
  - intros stem. unfold strip_extension.
    rewrite list_ascii_of_string_app. cbn [String.list_ascii_of_string].
    rewrite rev_app_distr. reflexivity.
  - intros stem ext n o blob Hext Hdot. unfold handle, show. cbn [name app].
    rewrite (Hstem stem ext Hext Hdot).
    rewrite !elem_of_cons. auto 10.
Qed.

(** The theorem at three file names. *)
Lemma strip_extension_last_dot_witness :
  strip_extension "archive.tar.gz" = "archive.tar"
  ∧ strip_extension "Makefile" = "Makefile"
  ∧ strip_extension "notes." = "notes.".
Proof.
  split; [|split].
  - apply (proj1 strip_extension_last_dot "archive.tar" "gz"); [discriminate|].
    cbn [String.list_ascii_of_string].
    rewrite !not_elem_of_cons. repeat split; try discriminate. apply not_elem_of_nil.
  - apply (proj1 (proj2 strip_extension_last_dot) "Makefile").
    cbn [String.list_ascii_of_string].
    rewrite !not_elem_of_cons. repeat split; try discriminate. apply not_elem_of_nil.
  - apply (proj1 (proj2 (proj2 strip_extension_last_dot)) "notes").
Defined.

End FileNameFacts.

Module ButtonProps.
Import JS Button ButtonFacts.

Section Facts.
Context {H : Type}.
Implicit Types p : gmap string (Value H).

(** X5: every prop other than the six the component takes out for itself
    and the two attributes it writes reaches the [<button>] as the caller
    gave it, and [variant], [size], [loading] and [children] never become
    attributes. *)
Theorem Button_forwards_other_props p k :
  k ∉ ["variant"; "size"; "className"; "children"; "loading"; "disabled"] →
  attrs (Button p) !! k = p !! k
  ∧ attrs (Button p) !! "variant" = None
  ∧ attrs (Button p) !! "size" = None
  ∧ attrs (Button p) !! "loading" = None
  ∧ attrs (Button p) !! "children" = None.
Proof.
  intros Hk. rewrite !not_elem_of_cons in Hk.
  destruct Hk as (Hv & Hs & Hc & Hch & Hl & Hd & _).
  assert (Hown : ∀ k', k' ≠ "className" → k' ≠ "disabled" →
            attrs (Button p) !! k' = rest p !! k').
  { intros k' H1 H2. unfold Button; cbn [attrs].
    apply lookup_union_l.
    rewrite lookup_insert_ne by done. by rewrite lookup_singleton_ne. }
  split; [|split; [|split; [|split]]].
  - rewrite Hown by done. unfold rest.
    rewrite !lookup_delete_ne by done. by apply props_rest_lookup.
  - rewrite Hown by done. unfold rest, props_rest.
    rewrite !lookup_delete_ne by done. apply lookup_delete_eq.
  - rewrite Hown by done. unfold rest, props_rest.
    rewrite !lookup_delete_ne by done. apply lookup_delete_eq.
  - rewrite Hown by done. unfold rest.
    rewrite lookup_delete_ne by done. apply lookup_delete_eq.
  - rewrite Hown by done. unfold rest, props_rest.
    rewrite !lookup_delete_ne by done. apply lookup_delete_eq.
Qed.

(** X6: a click on the rendered button runs the caller's [onClick] exactly
    when neither [loading] nor [disabled] is truthy; otherwise it runs
    nothing. *)
Theorem Button_click_when_enabled p :
  click (Button p)
  = if truthy (get_default p "loading" (Bool false)) || truthy (get p "disabled")
    then None
    else match get p "onClick" with
         | Handler h => Some h
         | _ => None
         end.
Proof.
  assert (Hd : is_disabled (Button p)
               = truthy (get_default p "loading" (Bool false))
                 || truthy (get p "disabled")).
  { unfold is_disabled. unfold get at 1. rewrite Button_disabled.
    cbn [default]. unfold or.
    destruct (truthy (get_default p "loading" (Bool false))) eqn:Hl;
      [exact Hl | reflexivity]. }
  destruct (truthy (get_default p "loading" (Bool false)) || truthy (get p "disabled"))
    eqn:Hb.
  - unfold click. rewrite Hd. reflexivity.
  - apply Button_click_enabled. rewrite Hd. reflexivity.
Qed.

End Facts.

(** The theorem at a button given a [type]. *)
Lemma Button_forwards_other_props_witness :
  attrs (Button ({[ "type" := Str "submit"; "variant" := Str "ghost";
                    "loading" := Bool false ]} : gmap string (Value nat))) !! "type"
  = Some (Str "submit").
Proof.
  refine (eq_trans (proj1 (Button_forwards_other_props _ "type" _)) _).
  - rewrite !not_elem_of_cons. repeat split; try discriminate. apply not_elem_of_nil.
  - vm_compute. reflexivity.
Defined.

End ButtonProps.

Module TimerFacts.
Import JS Api Effects Timers.

(** Every running interval is the one [polling] names, and its id is
    positive. *)
Definition tracked (s : State) : Prop :=
  ∀ x, x ∈ active s → polling s = Some x ∧ x ≠ 0.

Lemma tracked_initial : tracked initial.
Proof. intros x Hx. cbn in Hx. set_solver. Qed.

(** Clearing the previous interval leaves none running. *)
Lemma clear_previous_empties s :
  tracked s → active (settle (BatchPanel.clear_previous (polling s)) s) = ∅.
Proof.
  intros Hs. destruct s as [act pol]. cbn [polling] in *.
  destruct pol as [[|p]|]; cbn.
  - apply set_eq. intros x. split; [|set_solver].
    intros Hx. destruct (Hs x Hx) as [[= <-] Hne]. done.
  - apply set_eq. intros x. split; [|set_solver].
    intros Hx. apply elem_of_difference in Hx as [Hx Hn].
    destruct (Hs x Hx) as [[= <-] _]. set_solver.
  - apply set_eq. intros x. split; [|set_solver].
    intros Hx. destruct (Hs x Hx) as [[=] _].
Qed.

Lemma polling_clear_previous s :
  polling (settle (BatchPanel.clear_previous (polling s)) s) = polling s.
Proof. destruct s as [act [[|p]|]]; reflexivity. Qed.

Lemma settle_timers_app es es' s : settle (es ++ es') s = settle es' (settle es s).
Proof. unfold settle. apply foldl_app. Qed.

Lemma start_tracked s files o a t :
  t ≠ 0 → tracked s → tracked (settle (BatchPanel.start files (polling s) o a t) s).
Proof.
  intros Ht Hs. destruct files as [|f fs]; [exact Hs|].
  unfold BatchPanel.start. destruct a as [resp | m | ]; [|exact Hs|exact Hs].
  unfold BatchPanel.schedule.
  change (settle (?a :: ?b :: (?c :: ?l ++ ?l') ++ ?l'') s)
    with (settle ((l ++ l') ++ l'') s).
  rewrite !settle_timers_app.
  pose proof (clear_previous_empties s Hs) as He.
  pose proof (polling_clear_previous s) as Hp.
  destruct (settle (BatchPanel.clear_previous (polling s)) s) as [act pol].
  cbn in He, Hp |- *. subst act.
  intros x Hx. cbn in Hx.
  apply elem_of_union in Hx as [Hx | Hx]; [|by apply not_elem_of_empty in Hx].
  apply elem_of_singleton in Hx. subst x. done.
Qed.

Lemma resume_tracked s t a :
  tracked s → tracked (settle (Interval.resume t a) s).
Proof.
  intros Hs. destruct a as [st | m | ]; [|exact Hs|exact Hs].
  cbn [Interval.resume]. destruct (BatchPanel.terminal st); [|exact Hs].
  intros x Hx. cbn in Hx. apply elem_of_difference in Hx as [Hx _].
  apply (Hs x Hx).
Qed.

Lemma step_tracked s e :
  positive_id e = true → stays_mounted e = true → tracked s → tracked (step s e).
Proof.
  intros He Hm Hs. destruct e as [files o a t | t a | ]; cbn [step].
  - apply start_tracked; [|exact Hs].
    cbn in He. intros ->. discriminate.
  - by apply resume_tracked.
  - discriminate.
Qed.

Lemma foldl_step_tracked events s :
  forallb positive_id events = true → forallb stays_mounted events = true →
  tracked s → tracked (foldl step s events).
Proof.
  revert s. induction events as [|e rest IH]; intros s He Hm Hs; [exact Hs|].
  cbn [forallb] in He, Hm.
  apply andb_true_iff in He as [He Hrest]. apply andb_true_iff in Hm as [Hm Hmrest].
  cbn [foldl]. apply IH; [exact Hrest|exact Hmrest|]. by apply step_tracked.
Qed.

Lemma run_timers_app events more : run (events ++ more) = foldl step (run events) more.
Proof. unfold run. apply foldl_app. Qed.

(** X7: over any sequence of Start clicks (each run to its end) and
    answers to status requests, with interval ids that are positive, and as
    long as the panel stays mounted, at most one interval is running, and it
    is the one the [polling] state names: [start] clears the interval of the
    previous batch before it sets up the next.  A switch to another tab and
    back ends that: the intervals keep running, [polling] is [null] again,
    and the next [start] adds an interval and clears none. *)
Theorem at_most_one_interval events :
  forallb positive_id events = true →
  (forallb stays_mounted events = true →
     base.size (active (run events)) ≤ 1
     ∧ ∀ x, x ∈ active (run events) → polling (run events) = Some x)
  ∧ (active (run (events ++ [remounted])) = active (run events)
     ∧ polling (run (events ++ [remounted])) = None)
  ∧ (∀ f fs o resp t,
       active (run (events ++ [remounted; started (f :: fs) o (Resolved resp) t]))
       = {[t]} ∪ active (run events)).
Proof.
  intros He. split; [|split].
  - intros Hm.
    pose proof (foldl_step_tracked events initial He Hm tracked_initial) as Ht.
    fold (run events) in Ht. split; [|intros x Hx; apply (Ht x Hx)].
    destruct (polling (run events)) as [p|] eqn:Hp.
    + transitivity (base.size ({[p]} : gset nat)); [|rewrite size_singleton; lia].
      apply subseteq_size. intros x Hx. destruct (Ht x Hx) as [Hx' _].
      rewrite Hp in Hx'. injection Hx' as <-. set_solver.
    + replace (active (run events)) with (∅ : gset nat); [rewrite size_empty; lia|].
      symmetry. apply set_eq. intros x. split; [|set_solver].
      intros Hx. destruct (Ht x Hx) as [Hx' _]. rewrite Hp in Hx'. discriminate.
  - rewrite run_timers_app. split; reflexivity.
  - intros f fs o resp t. rewrite run_timers_app. reflexivity.
Qed.

(** The theorem at two batches one after the other, the first of which is
    still being polled when the second starts: with the panel mounted all
    the time one interval is running; with a switch to another tab and back
    before the second batch, its interval is added to the first batch's. *)
Lemma at_most_one_interval_witness :
  base.size (active (run
    [started [{| name := "a.py"; size := 1 |}] (AppModel.options_of AppModel.initial "google" "medium")
       (Resolved {| job_id := Some "job-1" |}) 3;
     answered 3 (Resolved {| status := "running"; message := "" |});
     started [{| name := "b.py"; size := 1 |}] (AppModel.options_of AppModel.initial "google" "medium")
       (Resolved {| job_id := Some "job-2" |}) 4])) ≤ 1
  ∧ active (run
      ([started [{| name := "a.py"; size := 1 |}] (AppModel.options_of AppModel.initial "google" "medium")
          (Resolved {| job_id := Some "job-1" |}) 3]
       ++ [remounted;
           started [{| name := "b.py"; size := 1 |}] (AppModel.options_of AppModel.initial "google" "medium")
             (Resolved {| job_id := Some "job-2" |}) 4]))
    = {[4]} ∪ active (run
        [started [{| name := "a.py"; size := 1 |}] (AppModel.options_of AppModel.initial "google" "medium")
           (Resolved {| job_id := Some "job-1" |}) 3]).
Proof.
  split.
  - refine (proj1 (proj1 (at_most_one_interval _ _) _)); reflexivity.
  - refine (proj2 (proj2 (at_most_one_interval _ _)) _ _ _ _ _). reflexivity.
Defined.

End TimerFacts.

Module BatchRunFacts.
Import JS Api Effects ClientFacts.

(** X8: when the answer of [startBatch] has no job id (or an empty one) the
    interval is set up all the same, and its callback never asks for the
    status and never clears the interval: the whole batch is what [start]
    did. *)
Theorem run_without_job_id f fs polling o resp t answers :
  match job_id resp with Some j => j = "" | None => True end →
  BatchPanel.run (f :: fs) polling o (Resolved resp) t answers
  = BatchPanel.start (f :: fs) polling o (Resolved resp) t
  ∧ setInterval t 1500 ∈ BatchPanel.run (f :: fs) polling o (Resolved resp) t answers
  ∧ requests (BatchPanel.run (f :: fs) polling o (Resolved resp) t answers)
    = [startBatch (f :: fs) o]
  ∧ ∀ a, BatchPanel.tick (job_id resp) t a = [].
Proof.
  intros Hjob.
  assert (Hfalsy : match job_id resp with
                   | Some j => String.eqb j ""
                   | None => true
                   end = true).
  { destruct (job_id resp) as [j|]; [subst j|]; reflexivity. }
  assert (Hrun : BatchPanel.run (f :: fs) polling o (Resolved resp) t answers
                 = BatchPanel.start (f :: fs) polling o (Resolved resp) t).
  { unfold BatchPanel.run. rewrite poll_falsy by exact Hfalsy. apply app_nil_r. }
  split; [exact Hrun|]. rewrite Hrun. split; [|split].
  - unfold BatchPanel.start, BatchPanel.schedule.
    do 2 (apply elem_of_cons; right). apply elem_of_app; left.
    apply elem_of_cons; right. apply elem_of_app; right.
    apply elem_of_cons; left. reflexivity.
  - apply requests_start.
  - intros a. by apply tick_falsy.
Qed.

(** The theorem at an answer without a job id. *)
Lemma run_without_job_id_witness :
  requests (BatchPanel.run [{| name := "a.py"; size := 1 |}] None
              (AppModel.options_of AppModel.initial "google" "medium")
              (Resolved {| job_id := None |}) 3
              [Resolved {| status := "completed"; message := "" |}])
  = [startBatch [{| name := "a.py"; size := 1 |}]
       (AppModel.options_of AppModel.initial "google" "medium")].
Proof.
  refine (proj1 (proj2 (proj2 (run_without_job_id _ _ _ _ _ _ _ _)))). exact I.
Defined.


(** Without a job id the callback does nothing, whenever it runs. *)
Lemma play_without_job job t s events :
  Interval.ask job = [] → Interval.waiting s = [] → Interval.play job t s events = [].
Proof.
  intros Hask Hw. induction events as [|e rest IH]; [reflexivity|].
  cbn [Interval.play]. destruct e as [|k a]; cbn [Interval.step].
  - rewrite Hask. destruct (Interval.running s); exact IH.
  - unfold Interval.is_waiting. rewrite Hw. exact IH.
Qed.



Lemma running_final job t s events :
  Interval.running (Interval.final job t s events) = true → Interval.running s = true.
Proof.
  intros Hf. destruct (Interval.running s) eqn:Hs; [reflexivity|].
  assert (H : Interval.running (Interval.final job t s events) = false).
  { apply IntervalFacts.stopped_iff_cleared. by left. }
  rewrite H in Hf. discriminate.
Qed.

(** With a job id, every firing of a running interval makes one status
    request for it, and nothing else makes a request. *)
Lemma play_asks j t s events :
  j ≠ "" →
  ∃ n, Interval.asked (Interval.final (Some j) t s events) = Interval.asked s + n
       ∧ requests (Interval.play (Some j) t s events) = replicate n (batchStatus j)
       ∧ n ≤ length (List.filter Interval.is_fire events)
       ∧ (Interval.running (Interval.final (Some j) t s events) = true →
          n = length (List.filter Interval.is_fire events)).
Proof.
  intros Hj. apply String.eqb_neq in Hj.
  revert s. induction events as [|e rest IH]; intros s.
  { exists 0. cbn. repeat split; lia. }
  cbn [Interval.play Interval.final]. destruct e as [|k a].
  - cbn [Interval.step List.filter Interval.is_fire length Interval.ask].
    rewrite Hj. destruct (Interval.running s) eqn:Hr.
    + cbn [fst snd].
      destruct (IH {| Interval.running := true; Interval.asked := S (Interval.asked s);
                      Interval.waiting := Interval.waiting s ++ [Interval.asked s] |})
        as (n & Ha & Hq & Hle & Heq).
      exists (S n). cbn [Interval.asked] in Ha.
      split; [lia|]. split; [|split; [lia|]].
      * rewrite requests_app, Hq. reflexivity.
      * intros Hf. f_equal. by apply Heq.
    + cbn [fst snd app]. destruct (IH s) as (n & Ha & Hq & Hle & Heq).
      exists n. split; [exact Ha|]. split; [exact Hq|]. split; [lia|].
      intros Hf. apply running_final in Hf. rewrite Hr in Hf. discriminate.
  - cbn [List.filter Interval.is_fire]. cbn [Interval.step].
    destruct (Interval.is_waiting k s); cbn [fst snd].
    + destruct (IH {| Interval.running :=
                        Interval.running s && negb (BatchPanel.reports_terminal a);
                      Interval.asked := Interval.asked s;
                      Interval.waiting := filter (λ k', k' ≠ k) (Interval.waiting s) |})
        as (n & Ha & Hq & Hle & Heq).
      exists n. cbn [Interval.asked] in Ha. split; [exact Ha|].
      split; [|split; [exact Hle | exact Heq]].
      rewrite requests_app, IntervalFacts.resume_no_request. exact Hq.
    + cbn [app]. apply IH.
Qed.

(** X9: a batch whose [startBatch] answer carries a job id issues that one
    [startBatch], for the selected files, and after it only status queries
    for that job id: one for every firing of the interval while it is
    running, whenever the answers arrive; so as many as the interval fired
    while no callback has cleared it, and no more once one has. *)
Theorem batch_requests_any_order files polling o resp t j events :
  files ≠ [] → job_id resp = Some j → j ≠ "" →
  requests (BatchPanel.start files polling o (Resolved resp) t
            ++ Interval.play (job_id resp) t Interval.initial events)
  = startBatch files o
    :: replicate (Interval.asked (Interval.final (job_id resp) t Interval.initial events))
         (batchStatus j)
  ∧ Interval.asked (Interval.final (job_id resp) t Interval.initial events)
    ≤ length (List.filter Interval.is_fire events)
  ∧ (Interval.running (Interval.final (job_id resp) t Interval.initial events) = true →
     Interval.asked (Interval.final (job_id resp) t Interval.initial events)
     = length (List.filter Interval.is_fire events))
  ∧ (Interval.running (Interval.final (job_id resp) t Interval.initial events) = false →
     ∀ more,
       requests (Interval.play (job_id resp) t Interval.initial (events ++ more))
       = requests (Interval.play (job_id resp) t Interval.initial events)).
Proof.
  intros Hf Hjob Hj. rewrite Hjob.
  destruct (play_asks j t Interval.initial events Hj) as (n & Ha & Hq & Hle & Heq).
  cbn [Interval.initial Interval.asked plus] in Ha. rewrite Ha.
  split; [|split; [exact Hle|split; [exact Heq|]]].
  - rewrite requests_app, requests_start.
    destruct files as [|f fs]; [done|]. cbn [app]. f_equal. exact Hq.
  - intros Hstop more.
    rewrite IntervalFacts.play_app, requests_app.
    rewrite (IntervalFacts.stopped_no_requests _ _ _ more Hstop).
    apply app_nil_r.
Qed.

(** The theorem at a batch whose interval fires a second time before the
    first status request is answered: the second answer reports
    [completed], the first arrives after it, and the client has made two
    status requests and makes no third. *)
Lemma batch_requests_any_order_witness :
  requests (BatchPanel.start [{| name := "a.py"; size := 1 |}] None
              (AppModel.options_of AppModel.initial "google" "medium")
              (Resolved {| job_id := Some "job-1" |}) 3
            ++ Interval.play (job_id {| job_id := Some "job-1" |}) 3 Interval.initial
                 [Interval.fires; Interval.fires;
                  Interval.arrives 1 (Resolved {| status := "completed"; message := "done" |});
                  Interval.fires;
                  Interval.arrives 0 (Resolved {| status := "running"; message := "" |})])
  = startBatch [{| name := "a.py"; size := 1 |}]
      (AppModel.options_of AppModel.initial "google" "medium")
    :: replicate
         (Interval.asked
            (Interval.final (job_id {| job_id := Some "job-1" |}) 3 Interval.initial
               [Interval.fires; Interval.fires;
                Interval.arrives 1 (Resolved {| status := "completed"; message := "done" |});
                Interval.fires;
                Interval.arrives 0 (Resolved {| status := "running"; message := "" |})]))
         (batchStatus "job-1").
Proof.
  refine (proj1 (batch_requests_any_order _ _ _ _ _ "job-1" _ _ _ _)); done.
Defined.



End BatchRunFacts.
